(** * cdiff: line diff and patch, verified against [src/cdiff.cpp]

    The development embeds the two subcommands of cdiff:
    - [edit_distance] (the diff engine: the distance/action tables filled by
      dynamic programming, and the backtrace that emits the patch);
    - [PatchSubcommand::run] (the record parser with its validation, the
      sort by (position, action), the reversal and the apply loop).

    Conventions of the embedding.
    - A [std::vector] is a [list]; an in-place write [v[i] = x] is stdpp's
      [<[i:=x]>]; a read whose index is fixed by the loop bounds is the
      total lookup [!!!]; a read or an [erase]/[insert] whose index comes
      from data is checked and yields [Undefined] when it is out of range
      (undefined behaviour in C++).
    - [int] values are in [Z].  Inside [edit_distance] every [int] is
      bounded by [|src| + |dst| + 1] (lemma [fill_distance_bound]); the
      embedding takes inputs for which this fits an [int], so no arithmetic
      overflows there.  Where the range of [int] is observable (the
      extraction [iss >> record.n]) it is written out.
    - [assert(false)] is the outcome [AssertFailed]. *)

From Stdlib Require Import ZArith Ascii String List Lia.
From stdpp Require Import base tactics option list numbers strings sorting gmap.

Local Open Scope Z_scope.

(** ** Outcomes of running C++ code *)

Inductive result (A : Type) : Type :=
| Ok (a : A)          (* normal completion *)
| AssertFailed        (* an [assert(false)] was reached *)
| Undefined           (* undefined behaviour: out-of-range access, indeterminate read *)
| OutOfFuel.          (* artefact of the embedding of [while]: fuel exhausted *)
Arguments Ok {A} a.
Arguments AssertFailed {A}.
Arguments Undefined {A}.
Arguments OutOfFuel {A}.

(** Sequencing stops at the first abnormal outcome; [x ← r; k] is stdpp's
    notation for it. *)
#[global] Instance result_bind : MBind result := fun A B k r =>
  match r with
  | Ok a => k a
  | AssertFailed => AssertFailed
  | Undefined => Undefined
  | OutOfFuel => OutOfFuel
  end.

(** [v[i]] for an index that comes from data. *)
Definition at_ {A} (v : list A) (i : Z) : result A :=
  if 0 <=? i then
    match v !! Z.to_nat i with Some x => Ok x | None => Undefined end
  else Undefined.

(** ** Reading a file: [read_entire_file] (lines 16-18) *)

Definition newline : ascii := ascii_of_N 10.

(** The loop [while (getline(inputFile, line)) lines.push_back(line)] over
    the contents of the file: [line] is the line being read and [extracted]
    tells whether a character of it was read; at the end of the input a
    [getline] that extracted nothing fails and ends the loop. *)
Fixpoint read_lines (content line : string) (extracted : bool) : list string :=
  match content with
  | String c rest =>
    if Ascii.eqb c newline then line :: read_lines rest "" false
    else read_lines rest (line +:+ String c "") true
  | EmptyString => if extracted then [line] else []
  end.

Definition read_entire_file (content : string) : list string :=
  read_lines content "" false.

(** ** The data model (lines 39-52) *)

Definition IGNORE : ascii := "="%char.
Definition ADD : ascii := "+"%char.
Definition REMOVE : ascii := "-"%char.
Definition SUBST : ascii := "x"%char.
Definition WILD : ascii := "%"%char.

Record Move : Type := mkMove { action : ascii; n : Z; line : string }.

Definition INT_MAX : Z := 2147483647.
Definition INT_MIN : Z := -2147483648.

#[global] Instance ascii_inhabited : Inhabited ascii := populate WILD.

(** ** The diff engine: [edit_distance] (lines 54-125) *)

Record tables : Type :=
  mkTables { distances : list (list Z); actions : list (list ascii) }.

Definition tget {A} `{Inhabited A} (t : list (list A)) (i j : nat) : A :=
  (t !!! i) !!! j.

Definition tset {A} (t : list (list A)) (i j : nat) (v : A) : list (list A) :=
  alter (fun row => <[j:=v]> row) i t.

Definition set_distance (t : tables) (i j : nat) (d : Z) : tables :=
  mkTables (tset (distances t) i j d) (actions t).

Definition set_action (t : tables) (i j : nat) (a : ascii) : tables :=
  mkTables (distances t) (tset (actions t) i j a).

(** Lines 59-64: both tables are allocated, then cell (0,0) is written. *)
Definition init_tables (m1 m2 : nat) : tables :=
  let t := mkTables (replicate (m1 + 1) (replicate (m2 + 1) 0))
                    (replicate (m1 + 1) (replicate (m2 + 1) WILD)) in
  set_action (set_distance t 0 0 0) 0 0 IGNORE.

(** Lines 66-69. *)
Definition fill_first_row (m2 : nat) (t : tables) : tables :=
  foldl (fun t j => set_action (set_distance t 0 j (Z.of_nat j)) 0 j ADD)
        t (seq 1 m2).

(** Lines 71-74. *)
Definition fill_first_col (m1 : nat) (t : tables) : tables :=
  foldl (fun t i => set_action (set_distance t i 0 (Z.of_nat i)) i 0 REMOVE)
        t (seq 1 m1).

(** Lines 78-102: the body of the inner loop at cell (i,j). *)
Definition cell (src dst : list string) (i j : nat) (t : tables) : tables :=
  if String.eqb (src !!! (i - 1)%nat) (dst !!! (j - 1)%nat) then
    let t := set_distance t i j (tget (distances t) (i - 1) (j - 1)) in
    set_action t i j IGNORE
  else
    let remove := tget (distances t) (i - 1) j in
    let add := tget (distances t) i (j - 1) in
    let t := set_distance t i j remove in
    let t := set_action t i j REMOVE in
    let t :=
      if tget (distances t) i j >? add
      then set_action (set_distance t i j add) i j ADD
      else t in
    set_distance t i j (tget (distances t) i j + 1).

(** Lines 76-104. *)
Definition fill_row (src dst : list string) (i : nat) (t : tables) : tables :=
  foldl (fun t j => cell src dst i j t) t (seq 1 (length dst)).

Definition fill_cells (src dst : list string) (t : tables) : tables :=
  foldl (fun t i => fill_row src dst i t) t (seq 1 (length src)).

Definition fill (src dst : list string) : tables :=
  fill_cells src dst
    (fill_first_col (length src)
       (fill_first_row (length dst)
          (init_tables (length src) (length dst)))).

(** [actions[i][j]] with [int] indices taken from the running state. *)
Definition action_at (t : tables) (i j : Z) : result ascii :=
  row ← at_ (actions t) i; at_ row j.

(** Lines 106-120: the backtrace loop.  One unit of fuel per evaluation of
    the loop condition. *)
Fixpoint backtrace (fuel : nat) (src dst : list string) (t : tables)
    (i j : Z) (patch : list Move) : result (list Move) :=
  match fuel with
  | O => OutOfFuel
  | S fuel =>
    if (0 <? i) || (0 <? j) then
      a ← action_at t i j;
      if Ascii.eqb a ADD then
        let j := j - 1 in
        l ← at_ dst j;
        backtrace fuel src dst t i j (patch ++ [mkMove ADD j l])
      else if Ascii.eqb a REMOVE then
        let i := i - 1 in
        l ← at_ src i;
        backtrace fuel src dst t i j (patch ++ [mkMove REMOVE i l])
      else if Ascii.eqb a IGNORE then
        backtrace fuel src dst t (i - 1) (j - 1) patch
      else AssertFailed
    else Ok patch
  end.

Definition edit_distance (src dst : list string) : result (list Move) :=
  let m1 := length src in
  let m2 := length dst in
  let t := fill src dst in
  patch ← backtrace (m1 + m2 + 1) src dst t (Z.of_nat m1) (Z.of_nat m2) [];
  Ok (rev patch).

(** ** Serialization: the output loop of [DiffSubcommand::run] (lines 209-218) *)

Definition code (c : ascii) : Z := Z.of_N (N_of_ascii c).

Definition digit_char (d : Z) : ascii := ascii_of_N (Z.to_N (48 + d)).

(** Decimal digits of a non-negative number, most significant first. *)
Fixpoint to_digits (fuel : nat) (v : Z) (acc : string) : string :=
  match fuel with
  | O => acc
  | S fuel =>
    let acc := String (digit_char (v mod 10)) acc in
    if v <? 10 then acc else to_digits fuel (v / 10) acc
  end.

(** [std::to_string(int)]: an [int] has at most ten digits. *)
Definition to_string (v : Z) : string :=
  if v <? 0 then String "-" (to_digits 10 (- v) "") else to_digits 10 v "".

(** One record of the diff output: action, space, position, space, line. *)
Definition serialize (mv : Move) : string :=
  String (action mv) "" +:+ " " +:+ to_string (n mv) +:+ " " +:+ line mv.

(** What [diff] prints, one element per output line. *)
Definition diff_output (src dst : list string) : result (list string) :=
  patch ← edit_distance src dst; Ok (map serialize patch).

(** [std::cout << str << std::endl] for each element: the text that [diff]
    writes and that the patch subcommand later reads as its patch file. *)
Definition print_lines (ls : list string) : string :=
  foldr (fun l text => l +:+ String newline text) "" ls.

(** ** Deserialization: formatted extraction from a [std::istringstream] *)

(** The stream: the characters not yet consumed, and whether [good()] holds
    (neither [failbit] nor [eofbit] is set). *)
Record istringstream : Type := mkStream { buf : string; good : bool }.

(** [isspace] in the "C" locale. *)
Definition isspace (c : ascii) : bool :=
  (code c =? 32) || ((9 <=? code c) && (code c <=? 13)).

Definition isdigit (c : ascii) : bool := (48 <=? code c) && (code c <=? 57).

Fixpoint skipws (s : string) : string :=
  match s with
  | String c rest => if isspace c then skipws rest else s
  | EmptyString => s
  end.

(** [iss >> c] for a [char]: skips white space, then takes one character.
    At the end of input the extraction fails and nothing is stored. *)
Definition get_char (s : istringstream) : istringstream * option ascii :=
  if good s then
    match skipws (buf s) with
    | String c rest => (mkStream rest true, Some c)
    | EmptyString => (mkStream "" false, None)
    end
  else (s, None).

(** The longest prefix of digits, as a number, and what follows it. *)
Fixpoint digits (s : string) (acc : Z) (seen : bool) : Z * bool * string :=
  match s with
  | String c rest =>
    if isdigit c then digits rest (acc * 10 + (code c - 48)) true
    else (acc, seen, s)
  | EmptyString => (acc, seen, s)
  end.

(** [iss >> v] for an [int] holding [old]: skips white space; at the end of
    input the sentry fails and [v] keeps [old]; otherwise an optional sign
    and the digits are consumed.  Without a digit 0 is stored, out of the
    range of [int] the nearest bound is stored, and in both cases [failbit]
    is set.  Reading the last character of the input sets [eofbit]. *)
Definition get_int (s : istringstream) (old : Z) : istringstream * Z :=
  if good s then
    match skipws (buf s) with
    | EmptyString => (mkStream "" false, old)
    | String c rest =>
      let '(neg, body) :=
        if Ascii.eqb c "-" then (true, rest)
        else if Ascii.eqb c "+" then (false, rest)
        else (false, String c rest) in
      let '(v, seen, rest) := digits body 0 false in
      let v := if neg then - v else v in
      if negb seen then (mkStream rest false, 0)
      else if INT_MAX <? v then (mkStream rest false, INT_MAX)
      else if v <? INT_MIN then (mkStream rest false, INT_MIN)
      else (mkStream rest (negb (String.eqb rest "")), v)
    end
  else (s, old).

(** The characters before the first newline, what follows that newline,
    and whether there was one. *)
Fixpoint until_newline (s : string) : string * string * bool :=
  match s with
  | String c rest =>
    if Ascii.eqb c newline then ("", rest, true)
    else let '(l, r, found) := until_newline rest in (String c l, r, found)
  | EmptyString => ("", "", false)
  end.

(** [std::getline(iss, l)] for a string holding [old]: on a stream that is
    not good nothing is stored; otherwise the characters up to the newline
    are stored, and the stream stays good only if the newline was there
    (else the end of the input was reached). *)
Definition getline (s : istringstream) (old : string) : istringstream * string :=
  if good s then
    let '(l, rest, found) := until_newline (buf s) in
    (mkStream rest found, l)
  else (s, old).

(** Line 272: [record.line[0]] of an empty string is the terminating NUL. *)
Definition strip_space (l : string) : string :=
  match l with
  | String c rest => if Ascii.eqb c " " then rest else l
  | EmptyString => l
  end.

(** Lines 256-273: what the loop body does with one non-empty line.
    [Malformed] is the branch that prints the error and clears [ok]. *)
Inductive parsed : Type :=
| Accepted (record : Move)
| Malformed.

Definition parse_record (l : string) : result parsed :=
  let iss := mkStream l true in
  (* Move record;  -- n = -1, action indeterminate, line empty *)
  let '(iss, oa) := get_char iss in
  let '(iss, rn) := get_int iss (-1) in
  match oa with
  | None => Undefined      (* the test reads the indeterminate [record.action] *)
  | Some a =>
    if negb (Ascii.eqb a ADD) && negb (Ascii.eqb a REMOVE) && negb (rn =? -1)
    then Ok Malformed
    else
      let '(iss, rl) := getline iss "" in
      Ok (Accepted (mkMove a rn (strip_space rl)))
  end.

(** The state of the validation loop: [ok], the errors printed so far and
    the patch collected so far. *)
Record parse_state : Type :=
  mkParse { ok : bool; errors : list string; patch_of : list Move }.

Definition error_message (patch_path : string) (row : nat) (l : string) : string :=
  patch_path +:+ ":" +:+ to_string (Z.of_nat row + 1)
    +:+ ": Invalid patch action: " +:+ l.

(** Lines 252-274, from row [row] on. *)
Fixpoint parse_rows (patch_path : string) (row : nat) (lines2 : list string)
    (st : parse_state) : result parse_state :=
  match lines2 with
  | [] => Ok st
  | l :: rest =>
    if String.eqb l "" then parse_rows patch_path (S row) rest st
    else
      p ← parse_record l;
      match p with
      | Malformed =>
        parse_rows patch_path (S row) rest
          (mkParse false (errors st ++ [error_message patch_path row l]) (patch_of st))
      | Accepted record =>
        parse_rows patch_path (S row) rest
          (mkParse (ok st) (errors st) (patch_of st ++ [record]))
      end
  end.

Definition deserialize (patch_path : string) (lines2 : list string) : result parse_state :=
  parse_rows patch_path 0 lines2 (mkParse true [] []).

(** ** Applying a patch (lines 280-295) *)

(** The comparator of line 280.  The action characters that reach the sort
    without tripping the assertion are 7-bit, where the order of [char]
    does not depend on its signedness. *)
Definition move_lt (p1 p2 : Move) : bool :=
  if n p1 =? n p2 then code (action p1) <? code (action p2)
  else n p1 <? n p2.

(** [std::sort] as an insertion sort.  The order of equivalent elements is
    unspecified by [std::sort]; the patches of [edit_distance] have none. *)
Fixpoint sort_insert (mv : Move) (l : list Move) : list Move :=
  match l with
  | [] => [mv]
  | x :: rest => if move_lt x mv then x :: sort_insert mv rest else mv :: l
  end.

Definition sort_moves (l : list Move) : list Move := foldr sort_insert [] l.

(** [lines1.erase(lines1.begin() + row)] *)
Definition erase (lines1 : list string) (row : Z) : result (list string) :=
  if (0 <=? row) && (row <? Z.of_nat (length lines1))
  then Ok (delete (Z.to_nat row) lines1)
  else Undefined.

(** [lines1.insert(lines1.begin() + row, line)] *)
Definition insert_at (lines1 : list string) (row : Z) (l : string) : result (list string) :=
  if (0 <=? row) && (row <=? Z.of_nat (length lines1))
  then Ok (take (Z.to_nat row) lines1 ++ l :: drop (Z.to_nat row) lines1)
  else Undefined.

(** Lines 287-295. *)
Fixpoint apply_moves (patch : list Move) (lines1 : list string) : result (list string) :=
  match patch with
  | [] => Ok lines1
  | mv :: rest =>
    if Ascii.eqb (action mv) REMOVE then
      lines1 ← erase lines1 (n mv); apply_moves rest lines1
    else if Ascii.eqb (action mv) ADD then
      lines1 ← insert_at lines1 (n mv) (line mv); apply_moves rest lines1
    else AssertFailed
  end.

(** Lines 280-295: sort, reverse, apply. *)
Definition apply_patch (lines1 : list string) (patch : list Move) : result (list string) :=
  apply_moves (rev (sort_moves patch)) lines1.

(** What a run of the patch subcommand leaves behind: the lines printed,
    the return value and the lines written to the output file, if any. *)
Record run_output : Type :=
  mkOutput { printed : list string; returned : Z; written : option (list string) }.

(** [PatchSubcommand::run] from line 249 on, on the lines of the two files. *)
Definition patch_run (patch_path : string) (lines1 lines2 : list string) : result run_output :=
  st ← deserialize patch_path lines2;
  if negb (ok st) then Ok (mkOutput (errors st) (-1) None)
  else
    lines1 ← apply_patch lines1 (patch_of st);
    Ok (mkOutput lines1 0 (Some lines1)).

(** ** Specification-side definitions *)

(** The distance in the specification's words, "the classic DP distance, no
    substitution": the minimum over deleting the head of the source,
    inserting the head of the destination and, when the heads are equal,
    keeping it.  It is written independently of the tables of
    [edit_distance] and compared with them below. *)
Fixpoint LevenshteinLineDistance (s d : list string) : nat :=
  match s with
  | [] => length d
  | a :: s' =>
    (fix row (d : list string) : nat :=
       match d with
       | [] => length s
       | b :: d' =>
         let del := S (LevenshteinLineDistance s' d) in
         let ins := S (row d') in
         if String.eqb a b
         then Nat.min (LevenshteinLineDistance s' d') (Nat.min del ins)
         else Nat.min del ins
       end) d
  end.

(** Edit scripts with insertions and deletions only: [edits s d k] when [k]
    single-line insertions and deletions turn [s] into [d]. *)
Inductive edits : list string -> list string -> nat -> Prop :=
| edits_nil : edits [] [] 0
| edits_keep a s d k : edits s d k -> edits (a :: s) (a :: d) k
| edits_del a s d k : edits s d k -> edits (a :: s) d (S k)
| edits_ins b s d k : edits s d k -> edits s (b :: d) (S k).

(** What the tables hold once filled: the distance between the prefixes of
    lengths [i] and [j] ... *)
Definition prefix_distance (src dst : list string) (i j : nat) : Z :=
  Z.of_nat (LevenshteinLineDistance (rev (take i src)) (rev (take j dst))).

(** ... and the direction the backtrace takes from cell (i,j). *)
Definition direction (src dst : list string) (i j : nat) : ascii :=
  match i, j with
  | O, O => IGNORE
  | O, S _ => ADD
  | S _, O => REMOVE
  | S i', S j' =>
    if String.eqb (src !!! i') (dst !!! j') then IGNORE
    else if prefix_distance src dst i j' <? prefix_distance src dst i' j
    then ADD else REMOVE
  end.

(** The moves the backtrace pushes from cell (i,j), in the order pushed. *)
Fixpoint trace (src dst : list string) (fuel i j : nat) : list Move :=
  match fuel with
  | O => []
  | S fuel =>
    match i, j with
    | O, O => []
    | O, S j' => mkMove ADD (Z.of_nat j') (dst !!! j') :: trace src dst fuel i j'
    | S i', O => mkMove REMOVE (Z.of_nat i') (src !!! i') :: trace src dst fuel i' j
    | S i', S j' =>
      if String.eqb (src !!! i') (dst !!! j') then trace src dst fuel i' j'
      else if prefix_distance src dst i j' <? prefix_distance src dst i' j
      then mkMove ADD (Z.of_nat j') (dst !!! j') :: trace src dst fuel i j'
      else mkMove REMOVE (Z.of_nat i') (src !!! i') :: trace src dst fuel i' j
    end
  end.

(** A table of [m1 + 1] rows and [m2 + 1] columns. *)
Definition dims {A} (m1 m2 : nat) (t : list (list A)) : Prop :=
  length t = (m1 + 1)%nat /\ forall i row, t !! i = Some row -> length row = (m2 + 1)%nat.

(** The cells selected by [P] hold their final values. *)
Definition filled (src dst : list string) (P : nat -> nat -> Prop) (t : tables) : Prop :=
  dims (length src) (length dst) (distances t) /\
  dims (length src) (length dst) (actions t) /\
  forall i j, (i <= length src)%nat -> (j <= length dst)%nat -> P i j ->
    tget (distances t) i j = prefix_distance src dst i j /\
    tget (actions t) i j = direction src dst i j.

(** The positions of the moves of one kind, in list order. *)
Definition positions (a : ascii) (patch : list Move) : list Z :=
  map n (filter (fun mv => action mv = a) patch).

(** A list of positions that decreases strictly and stays below [b]. *)
Fixpoint descending_below (b : Z) (l : list Z) : Prop :=
  match l with
  | [] => True
  | x :: rest => x < b /\ descending_below x rest
  end.

(** A move that inserts a line of [dst] at its index below [j], or deletes
    a line of [src] at its index below [i]. *)
Definition move_of (src dst : list string) (i j : nat) (mv : Move) : Prop :=
  exists k : nat,
    n mv = Z.of_nat k /\
    ((action mv = ADD /\ (k < j)%nat /\ dst !! k = Some (line mv)) \/
     (action mv = REMOVE /\ (k < i)%nat /\ src !! k = Some (line mv))).

(** The cells written before the inner loop reaches column [j] of row [i]. *)
Definition before (i j : nat) (i' j' : nat) : Prop :=
  i' = O \/ j' = O \/ (i' < i)%nat \/ (i' = i /\ (j' < j)%nat).

(** Consecutive operations of [patch] have non-decreasing positions. *)
Definition ascending_positions (patch : list Move) : Prop :=
  forall k (p1 p2 : Move),
    patch !! k = Some p1 -> patch !! S k = Some p2 -> n p1 <= n p2.

(** A line holds no newline character: lines come from
    [read_entire_file], which splits its input at them. *)
Fixpoint newline_free (l : string) : bool :=
  match l with
  | String c rest => negb (Ascii.eqb c newline) && newline_free rest
  | EmptyString => true
  end.

(** The action token of a record: its first character that is not white
    space. *)
Definition action_token (l : string) : option ascii :=
  match skipws l with
  | String c _ => Some c
  | EmptyString => None
  end.

(** A move that the diff engine can emit and [int] can hold. *)
Definition printable (mv : Move) : Prop :=
  (action mv = ADD \/ action mv = REMOVE) /\
  0 <= n mv <= INT_MAX /\
  newline_free (line mv) = true.

(** The value that [iss >> record.n] leaves in [record.n] for a line. *)
Definition position_read (l : string) : Z :=
  snd (get_int (fst (get_char (mkStream l true))) (-1)).

(** The order that the comparator of the sort induces: [p2] does not come
    strictly before [p1]. *)
Definition move_le (p1 p2 : Move) : Prop := move_lt p2 p1 = false.

(** ** The distance and its edit scripts *)

Section Distance.

Abbreviation lev := LevenshteinLineDistance.

Lemma lev_nil_l d : lev [] d = length d.
Proof. reflexivity. Qed.

Lemma lev_nil_r s : lev s [] = length s.
Proof. destruct s; reflexivity. Qed.

Lemma lev_cons a s b d :
  lev (a :: s) (b :: d) =
    if String.eqb a b
    then Nat.min (lev s d) (Nat.min (S (lev s (b :: d))) (S (lev (a :: s) d)))
    else Nat.min (S (lev s (b :: d))) (S (lev (a :: s) d)).
Proof. reflexivity. Qed.

Lemma edits_all_ins d : edits [] d (length d).
Proof. induction d; simpl; constructor; assumption. Qed.

Lemma edits_all_del s : edits s [] (length s).
Proof. induction s; simpl; constructor; assumption. Qed.

(** The distance is realised by a script ... *)
Lemma lev_edits s : forall d, edits s d (lev s d).
Proof.
  induction s as [|a s IHs]; intros d.
  - apply edits_all_ins.
  - induction d as [|b d IHd].
    + rewrite lev_nil_r. apply edits_all_del.
    + rewrite lev_cons.
      assert (Hdel : edits (a :: s) (b :: d) (S (lev s (b :: d))))
        by (apply edits_del, IHs).
      assert (Hins : edits (a :: s) (b :: d) (S (lev (a :: s) d)))
        by (apply edits_ins, IHd).
      destruct (String.eqb_spec a b) as [->|Hne].
      * assert (Hkeep : edits (b :: s) (b :: d) (lev s d))
          by (apply edits_keep, IHs).
        destruct (Nat.min_spec (S (lev s (b :: d))) (S (lev (b :: s) d)))
          as [[_ ->]|[_ ->]];
        [ destruct (Nat.min_spec (lev s d) (S (lev s (b :: d)))) as [[_ ->]|[_ ->]]
        | destruct (Nat.min_spec (lev s d) (S (lev (b :: s) d))) as [[_ ->]|[_ ->]] ];
        assumption.
      * destruct (Nat.min_spec (S (lev s (b :: d))) (S (lev (a :: s) d)))
          as [[_ ->]|[_ ->]]; assumption.
Qed.

(** ... and no script is shorter. *)
Lemma edits_lev_le s d k : edits s d k -> (lev s d <= k)%nat.
Proof.
  induction 1 as [|a s d k _ IH|a s d k _ IH|b s d k _ IH].
  - simpl. lia.
  - rewrite lev_cons, String.eqb_refl. lia.
  - destruct d as [|b d]; [rewrite lev_nil_r in *; simpl; lia|].
    rewrite lev_cons. destruct (String.eqb a b); lia.
  - destruct s as [|a s]; [simpl in *; lia|].
    rewrite lev_cons. destruct (String.eqb a b); lia.
Qed.

Lemma edits_drop_src a s d k :
  edits (a :: s) d k -> exists k', (k' <= S k)%nat /\ edits s d k'.
Proof.
  intros H. remember (a :: s) as s0 eqn:Es.
  revert a s Es. induction H as [|a' s' d k H IH|a' s' d k H IH|b s' d k H IH];
    intros a s Es.
  - discriminate.
  - injection Es as -> ->. exists (S k). split; [lia|]. by apply edits_ins.
  - injection Es as -> ->. exists k. split; [lia|done].
  - destruct (IH a s Es) as (k' & Hk & He).
    exists (S k'). split; [lia|]. by apply edits_ins.
Qed.

Lemma edits_drop_dst b s d k :
  edits s (b :: d) k -> exists k', (k' <= S k)%nat /\ edits s d k'.
Proof.
  intros H. remember (b :: d) as d0 eqn:Ed.
  revert b d Ed. induction H as [|a' s' d' k H IH|a' s' d' k H IH|b' s' d' k H IH];
    intros b d Ed.
  - discriminate.
  - injection Ed as -> ->. exists (S k). split; [lia|]. by apply edits_del.
  - destruct (IH b d Ed) as (k' & Hk & He).
    exists (S k'). split; [lia|]. by apply edits_del.
  - injection Ed as -> ->. exists k. split; [lia|done].
Qed.

(** On equal heads keeping the line is optimal: this is the step the code
    takes without looking at the two other neighbours. *)
Lemma lev_cons_eq a s d : lev (a :: s) (a :: d) = lev s d.
Proof.
  rewrite lev_cons, String.eqb_refl.
  destruct (edits_drop_dst a s d _ (lev_edits s (a :: d))) as (k1 & Hk1 & He1).
  destruct (edits_drop_src a s d _ (lev_edits (a :: s) d)) as (k2 & Hk2 & He2).
  apply edits_lev_le in He1, He2. lia.
Qed.

Lemma lev_cons_ne a s b d :
  a <> b ->
  lev (a :: s) (b :: d) = S (Nat.min (lev s (b :: d)) (lev (a :: s) d)).
Proof.
  intros Hne. rewrite lev_cons.
  destruct (String.eqb_spec a b); [done|lia].
Qed.

Lemma edits_app s1 d1 k1 s2 d2 k2 :
  edits s1 d1 k1 -> edits s2 d2 k2 -> edits (s1 ++ s2) (d1 ++ d2) (k1 + k2).
Proof.
  intros H1 H2. induction H1; simpl; [done|by constructor..].
Qed.

Lemma edits_rev s d k : edits s d k -> edits (rev s) (rev d) k.
Proof.
  induction 1 as [|a s d k _ IH|a s d k _ IH|b s d k _ IH]; simpl.
  - constructor.
  - replace k with (k + 0)%nat by lia.
    apply edits_app; [done|]. do 2 constructor.
  - replace (S k) with (k + 1)%nat by lia.
    rewrite <- (app_nil_r (rev d)).
    apply edits_app; [done|]. do 2 constructor.
  - replace (S k) with (k + 1)%nat by lia.
    rewrite <- (app_nil_r (rev s)).
    apply edits_app; [done|]. do 2 constructor.
Qed.

(** The distance of the reversed sequences is the same: the tables of the
    code grow prefixes, the recursion above peels heads. *)
Lemma lev_rev s d : lev (rev s) (rev d) = lev s d.
Proof.
  apply Nat.le_antisymm; apply edits_lev_le.
  - apply edits_rev, lev_edits.
  - rewrite <- (rev_involutive s), <- (rev_involutive d) at 1.
    apply edits_rev, lev_edits.
Qed.

End Distance.

(** ** The tables after the loops *)

Section Tables.

Context {A : Type} `{Inhabited A}.
Implicit Types t : list (list A).

Lemma tset_dims m1 m2 t i j v : dims m1 m2 t -> dims m1 m2 (tset t i j v).
Proof.
  intros [Hl Hr]. split.
  - unfold tset. by rewrite length_alter.
  - intros i' row. unfold tset. rewrite list_lookup_alter.
    case_decide as Hi.
    + destruct (t !! i) as [r|] eqn:E; simpl; [|done].
      intros [= <-]. rewrite length_insert. by eapply Hr.
    + apply Hr.
Qed.

Lemma tget_tset m1 m2 t i j v i' j' :
  dims m1 m2 t -> (i <= m1)%nat -> (j <= m2)%nat ->
  tget (tset t i j v) i' j' =
    if decide (i' = i /\ j' = j) then v else tget t i' j'.
Proof.
  intros [Hl Hr] Hi Hj. unfold tget, tset.
  destruct (decide (i = i')) as [<-|Hne].
  - rewrite list_lookup_total_alter_eq by lia.
    assert (Hrow : length (t !!! i) = (m2 + 1)%nat).
    { apply (Hr i). apply list_lookup_lookup_total_lt. lia. }
    destruct (decide (j = j')) as [<-|Hnj].
    + rewrite list_lookup_total_insert_eq by lia.
      by rewrite decide_True.
    + rewrite list_lookup_total_insert_ne by done.
      rewrite decide_False; [done|]. intros [_ ->]. done.
  - rewrite list_lookup_total_alter_ne by done.
    rewrite decide_False; [done|]. intros [-> _]. done.
Qed.

Lemma replicate_dims m1 m2 (x : A) :
  dims m1 m2 (replicate (m1 + 1) (replicate (m2 + 1) x)).
Proof.
  split.
  - by rewrite length_replicate.
  - intros i row [-> _]%lookup_replicate. by rewrite length_replicate.
Qed.

End Tables.

(** Invariants of [foldl] over a range of indices. *)
Lemma foldl_seq_invariant {S} (I : nat -> S -> Prop) (f : S -> nat -> S) len :
  forall start s,
    I start s ->
    (forall k x, (start <= k < start + len)%nat -> I k x -> I (Datatypes.S k) (f x k)) ->
    I (start + len)%nat (foldl f s (seq start len)).
Proof.
  induction len as [|len IH]; intros start s H0 Hstep; simpl.
  - by rewrite Nat.add_0_r.
  - replace (start + Datatypes.S len)%nat with (Datatypes.S start + len)%nat by lia.
    apply IH.
    + apply Hstep; [lia|done].
    + intros k x Hk. apply Hstep. lia.
Qed.

Section Fill.

Variables src dst : list string.

Abbreviation m1 := (length src).
Abbreviation m2 := (length dst).
Abbreviation D := (prefix_distance src dst).

Lemma rev_take_S (l : list string) i :
  (i < length l)%nat -> rev (take (S i) l) = (l !!! i) :: rev (take i l).
Proof.
  intros Hi. rewrite (take_S_r l i (l !!! i)).
  - by rewrite rev_unit.
  - by apply list_lookup_lookup_total_lt.
Qed.

Lemma prefix_distance_0_l j : (j <= m2)%nat -> D 0 j = Z.of_nat j.
Proof.
  intros Hj. unfold prefix_distance. rewrite take_0. simpl.
  rewrite length_rev, length_take. f_equal. lia.
Qed.

Lemma prefix_distance_0_r i : (i <= m1)%nat -> D i 0 = Z.of_nat i.
Proof.
  intros Hi. unfold prefix_distance. rewrite take_0. simpl.
  rewrite lev_nil_r, length_rev, length_take. f_equal. lia.
Qed.

Lemma prefix_distance_S i j :
  (i < m1)%nat -> (j < m2)%nat ->
  D (S i) (S j) =
    if String.eqb (src !!! i) (dst !!! j) then D i j
    else Z.min (D i (S j)) (D (S i) j) + 1.
Proof.
  intros Hi Hj. unfold prefix_distance.
  rewrite !rev_take_S by done.
  destruct (String.eqb_spec (src !!! i) (dst !!! j)) as [->|Hne].
  - by rewrite lev_cons_eq.
  - rewrite lev_cons_ne by done. lia.
Qed.

(** Reading a table after writes to it. *)
Ltac tget_write :=
  rewrite !(tget_tset m1 m2) by (done || by repeat apply tset_dims);
  rewrite ?decide_True by done; rewrite ?decide_False by done.

(** What one pass through the body of the inner loop does to the tables. *)
Lemma cell_effect t i j :
  dims m1 m2 (distances t) -> dims m1 m2 (actions t) ->
  (i <= m1)%nat -> (j <= m2)%nat ->
  dims m1 m2 (distances (cell src dst i j t)) /\
  dims m1 m2 (actions (cell src dst i j t)) /\
  (forall i' j', ~ (i' = i /\ j' = j) ->
     tget (distances (cell src dst i j t)) i' j' = tget (distances t) i' j' /\
     tget (actions (cell src dst i j t)) i' j' = tget (actions t) i' j') /\
  tget (distances (cell src dst i j t)) i j =
    (if String.eqb (src !!! (i - 1)%nat) (dst !!! (j - 1)%nat)
     then tget (distances t) (i - 1) (j - 1)
     else Z.min (tget (distances t) (i - 1) j) (tget (distances t) i (j - 1)) + 1) /\
  tget (actions (cell src dst i j t)) i j =
    (if String.eqb (src !!! (i - 1)%nat) (dst !!! (j - 1)%nat) then IGNORE
     else if tget (distances t) i (j - 1) <? tget (distances t) (i - 1) j
     then ADD else REMOVE).
Proof.
  intros Hd Ha Hi Hj. unfold cell.
  destruct (String.eqb (src !!! (i - 1)%nat) (dst !!! (j - 1)%nat)); simpl.
  - split_and!; [by apply tset_dims..| |by tget_write|by tget_write].
    intros i' j' Hne. split; by tget_write.
  - rewrite Z.gtb_ltb.
    rewrite (tget_tset m1 m2 (distances t) i j _ i j) by done.
    rewrite decide_True by done.
    destruct (Z.ltb_spec (tget (distances t) i (j - 1)) (tget (distances t) (i - 1) j));
      simpl.
    + split_and!; [by repeat apply tset_dims..| |tget_write; lia|by tget_write].
      intros i' j' Hne. split; by tget_write.
    + split_and!; [by repeat apply tset_dims..| |tget_write; lia|by tget_write].
      intros i' j' Hne. split; by tget_write.
Qed.

Lemma filled_weaken (P Q : nat -> nat -> Prop) t :
  (forall i j, (i <= m1)%nat -> (j <= m2)%nat -> Q i j -> P i j) ->
  filled src dst P t -> filled src dst Q t.
Proof.
  intros HPQ (Hd & Ha & Hc). split_and!; [done..|].
  intros i j Hi Hj HQ. apply Hc; auto.
Qed.

Lemma filled_write (P : nat -> nat -> Prop) t i j d a :
  filled src dst P t -> (i <= m1)%nat -> (j <= m2)%nat ->
  d = D i j -> a = direction src dst i j ->
  filled src dst (fun i' j' => P i' j' \/ (i' = i /\ j' = j))
    (set_action (set_distance t i j d) i j a).
Proof.
  intros (Hd & Ha & Hc) Hi Hj -> ->. split_and!; simpl; [by apply tset_dims..|].
  intros i' j' Hi' Hj' HP. tget_write.
  destruct (decide (i' = i /\ j' = j)) as [[-> ->]|Hne]; [done|].
  apply Hc; [done..|]. by destruct HP.
Qed.

Lemma init_filled :
  filled src dst (fun i j => i = O /\ j = O) (init_tables m1 m2).
Proof.
  unfold init_tables.
  eapply filled_weaken;
    [|eapply (filled_write (fun _ _ => False) _ O O); try (done || lia)].
  - intros i j _ _ [-> ->]. by right.
  - split_and!; simpl; [apply replicate_dims..|done].
Qed.

Lemma first_row_filled t :
  filled src dst (fun i j => i = O /\ j = O) t ->
  filled src dst (fun i j => i = O) (fill_first_row m2 t).
Proof.
  intros H0. unfold fill_first_row.
  eapply filled_weaken; last first.
  - apply (foldl_seq_invariant
             (fun k t => filled src dst (fun i j => i = O /\ (j < k)%nat) t)).
    + eapply filled_weaken; [|exact H0]. simpl. intros i j _ _ [-> Hj].
      split; [done|lia].
    + intros k x Hk Hx. eapply filled_weaken;
        [|eapply (filled_write _ x O k); [exact Hx|lia|lia| |]].
      * simpl. intros i j _ _ [-> Hj].
        destruct (decide (j = k)); [by right|left; split; [done|lia]].
      * by rewrite prefix_distance_0_l by lia.
      * destruct k; [lia|done].
  - simpl. intros i j _ Hj ->. split; [done|lia].
Qed.

Lemma first_col_filled t :
  filled src dst (fun i j => i = O) t ->
  filled src dst (fun i j => i = O \/ j = O) (fill_first_col m1 t).
Proof.
  intros H0. unfold fill_first_col.
  eapply filled_weaken; last first.
  - apply (foldl_seq_invariant
             (fun k t => filled src dst
                           (fun i j => i = O \/ (j = O /\ (i < k)%nat)) t)).
    + eapply filled_weaken; [|exact H0]. simpl. intros i j _ _ [Hi|[Hj Hi]];
        [done|lia].
    + intros k x Hk Hx. eapply filled_weaken;
        [|eapply (filled_write _ x k O); [exact Hx|lia|lia| |]].
      * simpl. intros i j _ _ [Hi|[Hj Hi]]; [by left; left|].
        destruct (decide (i = k)); [by right|left; right; split; [done|lia]].
      * by rewrite prefix_distance_0_r by lia.
      * destruct k; [lia|done].
  - simpl. intros i j Hi _ [Hz|Hz]; [by left|].
    destruct (decide (i = O)); [by left|right; split; [done|lia]].
Qed.

Lemma cell_filled t i j :
  (1 <= i <= m1)%nat -> (1 <= j <= m2)%nat ->
  filled src dst (before i j) t ->
  filled src dst (before i (S j)) (cell src dst i j t).
Proof.
  intros Hi Hj (Hd & Ha & Hc).
  destruct (cell_effect t i j Hd Ha) as (Hd' & Ha' & Hother & Hdist & Hact);
    [lia..|].
  split_and!; [done..|].
  intros i' j' Hi' Hj' HP.
  destruct (decide (i' = i /\ j' = j)) as [[-> ->]|Hne].
  - rewrite Hdist, Hact.
    destruct i as [|i]; [lia|]. destruct j as [|j]; [lia|].
    replace (S i - 1)%nat with i by lia. replace (S j - 1)%nat with j by lia.
    destruct (Hc i j) as [-> _]; [lia|lia|unfold before; lia|].
    destruct (Hc i (S j)) as [-> _]; [lia|lia|unfold before; lia|].
    destruct (Hc (S i) j) as [-> _]; [lia|lia|unfold before; lia|].
    rewrite prefix_distance_S by lia. simpl.
    by destruct (String.eqb (src !!! i) (dst !!! j)).
  - destruct (Hother i' j' Hne) as [-> ->]. apply Hc; [done..|].
    unfold before in *. lia.
Qed.

Lemma fill_row_filled t i :
  (1 <= i <= m1)%nat ->
  filled src dst (before i 1) t ->
  filled src dst (before (S i) 1) (fill_row src dst i t).
Proof.
  intros Hi H0. unfold fill_row.
  eapply filled_weaken; last first.
  - apply (foldl_seq_invariant (fun k t => filled src dst (before i k) t));
      [exact H0|].
    intros k x Hk Hx. apply cell_filled; [lia..|done].
  - simpl. unfold before. lia.
Qed.

Lemma fill_cells_filled t :
  filled src dst (fun i j => i = O \/ j = O) t ->
  filled src dst (fun _ _ => True) (fill_cells src dst t).
Proof.
  intros H0. unfold fill_cells.
  eapply filled_weaken; last first.
  - apply (foldl_seq_invariant (fun k t => filled src dst (before k 1) t)).
    + eapply filled_weaken; [|exact H0]. simpl. unfold before. lia.
    + intros k x Hk Hx. apply fill_row_filled; [lia|done].
  - simpl. unfold before. lia.
Qed.

(** Every cell of the filled tables holds the distance between the two
    prefixes and the direction of the backtrace. *)
Lemma fill_filled : filled src dst (fun _ _ => True) (fill src dst).
Proof.
  unfold fill.
  apply fill_cells_filled, first_col_filled, first_row_filled, init_filled.
Qed.

Lemma fill_distance i j :
  (i <= m1)%nat -> (j <= m2)%nat ->
  tget (distances (fill src dst)) i j = D i j.
Proof. intros Hi Hj. by apply fill_filled. Qed.

Lemma fill_action i j :
  (i <= m1)%nat -> (j <= m2)%nat ->
  tget (actions (fill src dst)) i j = direction src dst i j.
Proof. intros Hi Hj. by apply fill_filled. Qed.

Lemma prefix_distance_bound i j :
  (i <= m1)%nat -> (j <= m2)%nat -> 0 <= D i j <= Z.of_nat i + Z.of_nat j.
Proof.
  intros Hi Hj. unfold prefix_distance. split; [lia|].
  pose proof (edits_app _ _ _ _ _ _
    (edits_all_del (rev (take i src))) (edits_all_ins (rev (take j dst)))) as He.
  rewrite app_nil_r in He. simpl in He. apply edits_lev_le in He.
  rewrite !length_rev, !length_take in He. lia.
Qed.

(** No value stored in the distance table exceeds [|src| + |dst|]. *)
Lemma fill_distance_bound i j :
  (i <= m1)%nat -> (j <= m2)%nat ->
  0 <= tget (distances (fill src dst)) i j <= Z.of_nat m1 + Z.of_nat m2.
Proof.
  intros Hi Hj. rewrite fill_distance by done.
  pose proof (prefix_distance_bound i j Hi Hj). lia.
Qed.

(** *** The backtrace over the filled tables *)

Lemma at_lookup {A} `{Inhabited A} (l : list A) i :
  (i < length l)%nat -> at_ l (Z.of_nat i) = Ok (l !!! i).
Proof.
  intros Hi. unfold at_.
  destruct (Z.leb_spec 0 (Z.of_nat i)); [|lia].
  by rewrite Nat2Z.id, list_lookup_lookup_total_lt.
Qed.

Lemma action_at_fill i j :
  (i <= m1)%nat -> (j <= m2)%nat ->
  action_at (fill src dst) (Z.of_nat i) (Z.of_nat j) = Ok (direction src dst i j).
Proof.
  intros Hi Hj. destruct fill_filled as (_ & [Hl Hr] & _).
  unfold action_at. rewrite at_lookup by lia. simpl.
  rewrite at_lookup.
  - by rewrite <- fill_action.
  - rewrite (Hr i); [lia|]. apply list_lookup_lookup_total_lt. lia.
Qed.

Lemma backtrace_unfold fuel t i j acc :
  backtrace (S fuel) src dst t i j acc =
    if (0 <? i) || (0 <? j) then
      a ← action_at t i j;
      if Ascii.eqb a ADD then
        l ← at_ dst (j - 1);
        backtrace fuel src dst t i (j - 1) (acc ++ [mkMove ADD (j - 1) l])
      else if Ascii.eqb a REMOVE then
        l ← at_ src (i - 1);
        backtrace fuel src dst t (i - 1) j (acc ++ [mkMove REMOVE (i - 1) l])
      else if Ascii.eqb a IGNORE then
        backtrace fuel src dst t (i - 1) (j - 1) acc
      else AssertFailed
    else Ok acc.
Proof. reflexivity. Qed.

#[local] Arguments backtrace : simpl never.

(** With enough fuel the loop ends normally, having pushed [trace]. *)
Lemma backtrace_trace fuel :
  forall i j acc,
    (i <= m1)%nat -> (j <= m2)%nat -> (i + j <= fuel)%nat ->
    backtrace (S fuel) src dst (fill src dst) (Z.of_nat i) (Z.of_nat j) acc =
      Ok (acc ++ trace src dst fuel i j).
Proof.
  induction fuel as [|fuel IH]; intros i j acc Hi Hj Hf.
  - assert (i = O) as -> by lia. assert (j = O) as -> by lia.
    rewrite backtrace_unfold. simpl. by rewrite app_nil_r.
  - rewrite backtrace_unfold.
    destruct i as [|i], j as [|j].
    + simpl. by rewrite app_nil_r.
    + replace ((0 <? Z.of_nat 0) || (0 <? Z.of_nat (S j))) with true
        by (symmetry; apply orb_true_iff; right; apply Z.ltb_lt; lia).
      rewrite action_at_fill by done. simpl.
      replace (Z.of_nat (S j) - 1) with (Z.of_nat j) by lia.
      rewrite at_lookup by lia. simpl.
      rewrite (IH O j) by lia. by rewrite <- app_assoc.
    + replace ((0 <? Z.of_nat (S i)) || (0 <? Z.of_nat 0)) with true
        by (symmetry; apply orb_true_iff; left; apply Z.ltb_lt; lia).
      rewrite action_at_fill by done. simpl.
      replace (Z.of_nat (S i) - 1) with (Z.of_nat i) by lia.
      rewrite at_lookup by lia. simpl.
      rewrite (IH i O) by lia. by rewrite <- app_assoc.
    + replace ((0 <? Z.of_nat (S i)) || (0 <? Z.of_nat (S j))) with true
        by (symmetry; apply orb_true_iff; left; apply Z.ltb_lt; lia).
      rewrite action_at_fill by done.
      replace (Z.of_nat (S j) - 1) with (Z.of_nat j) by lia.
      replace (Z.of_nat (S i) - 1) with (Z.of_nat i) by lia.
      cbn [direction trace].
      destruct (String.eqb (src !!! i) (dst !!! j)).
      * simpl. by rewrite (IH i j) by lia.
      * destruct (D (S i) j <? D i (S j)); simpl.
        -- rewrite at_lookup by lia. simpl.
           rewrite (IH (S i) j) by lia. by rewrite <- app_assoc.
        -- rewrite at_lookup by lia. simpl.
           rewrite (IH i (S j)) by lia. by rewrite <- app_assoc.
Qed.

(** [edit_distance] always returns, and returns the reversed trace. *)
Lemma edit_distance_trace :
  edit_distance src dst = Ok (rev (trace src dst (m1 + m2) m1 m2)).
Proof.
  unfold edit_distance. rewrite Nat.add_1_r.
  by rewrite backtrace_trace.
Qed.

(** *** Properties of the trace *)

Lemma trace_length fuel :
  forall i j,
    (i <= m1)%nat -> (j <= m2)%nat -> (i + j <= fuel)%nat ->
    Z.of_nat (length (trace src dst fuel i j)) = D i j.
Proof.
  induction fuel as [|fuel IH]; intros i j Hi Hj Hf.
  - assert (i = O) as -> by lia. assert (j = O) as -> by lia.
    by rewrite prefix_distance_0_l by lia.
  - destruct i as [|i], j as [|j]; cbn [trace].
    + by rewrite prefix_distance_0_l by lia.
    + rewrite length_cons, Nat2Z.inj_succ, IH by lia.
      rewrite !prefix_distance_0_l by lia. lia.
    + rewrite length_cons, Nat2Z.inj_succ, IH by lia.
      rewrite !prefix_distance_0_r by lia. lia.
    + rewrite prefix_distance_S by lia.
      destruct (String.eqb (src !!! i) (dst !!! j)); [apply IH; lia|].
      destruct (Z.ltb_spec (D (S i) j) (D i (S j)));
        rewrite length_cons, Nat2Z.inj_succ, IH by lia; lia.
Qed.

Lemma move_of_mono i j i' j' mv :
  (i <= i')%nat -> (j <= j')%nat ->
  move_of src dst i j mv -> move_of src dst i' j' mv.
Proof.
  intros Hi Hj (k & Hn & [(Ha & Hk & Hl)|(Ha & Hk & Hl)]); exists k;
    (split; [done|]); [left|right]; split_and!; (done || lia).
Qed.

Lemma trace_moves fuel :
  forall i j,
    (i <= m1)%nat -> (j <= m2)%nat ->
    Forall (move_of src dst i j) (trace src dst fuel i j).
Proof.
  assert (Hadd : forall i j, (j < m2)%nat ->
            move_of src dst i (S j) (mkMove ADD (Z.of_nat j) (dst !!! j))).
  { intros i j Hj. exists j. split; [done|]. left. split_and!; [done|lia|].
    by apply list_lookup_lookup_total_lt. }
  assert (Hdel : forall i j, (i < m1)%nat ->
            move_of src dst (S i) j (mkMove REMOVE (Z.of_nat i) (src !!! i))).
  { intros i j Hi. exists i. split; [done|]. right. split_and!; [done|lia|].
    by apply list_lookup_lookup_total_lt. }
  induction fuel as [|fuel IH]; intros i j Hi Hj; [constructor|].
  destruct i as [|i], j as [|j]; cbn [trace].
  - constructor.
  - constructor; [apply Hadd; lia|].
    eapply Forall_impl; [apply IH; lia|].
    intros mv. apply move_of_mono; lia.
  - constructor; [apply Hdel; lia|].
    eapply Forall_impl; [apply IH; lia|].
    intros mv. apply move_of_mono; lia.
  - destruct (String.eqb (src !!! i) (dst !!! j)).
    + eapply Forall_impl; [apply (IH i j); lia|].
      intros mv. apply move_of_mono; lia.
    + destruct (D (S i) j <? D i (S j)).
      * constructor; [apply Hadd; lia|].
        eapply Forall_impl; [apply IH; lia|].
        intros mv. apply move_of_mono; lia.
      * constructor; [apply Hdel; lia|].
        eapply Forall_impl; [apply IH; lia|].
        intros mv. apply move_of_mono; lia.
Qed.

Lemma descending_below_mono b b' l :
  b <= b' -> descending_below b l -> descending_below b' l.
Proof. destruct l; simpl; [done|]. intros Hb [Hx Hl]. split; [lia|done]. Qed.

Lemma positions_cons a mv l :
  positions a (mv :: l) =
    if decide (action mv = a) then n mv :: positions a l else positions a l.
Proof.
  unfold positions. rewrite filter_cons. by destruct (decide (action mv = a)).
Qed.

Lemma trace_positions_add fuel :
  forall i j,
    descending_below (Z.of_nat j) (positions ADD (trace src dst fuel i j)).
Proof.
  induction fuel as [|fuel IH]; intros i j; [done|].
  destruct i as [|i], j as [|j]; cbn [trace]; [done|..].
  - rewrite positions_cons. simpl. split; [lia|apply IH].
  - rewrite positions_cons. simpl. apply (IH i O).
  - destruct (String.eqb (src !!! i) (dst !!! j)).
    + eapply descending_below_mono; [|apply (IH i j)]. lia.
    + destruct (D (S i) j <? D i (S j)); rewrite positions_cons; simpl.
      * split; [lia|apply IH].
      * apply (IH i (S j)).
Qed.

Lemma trace_positions_remove fuel :
  forall i j,
    descending_below (Z.of_nat i) (positions REMOVE (trace src dst fuel i j)).
Proof.
  induction fuel as [|fuel IH]; intros i j; [done|].
  destruct i as [|i], j as [|j]; cbn [trace]; [done|..].
  - rewrite positions_cons. simpl. apply (IH O j).
  - rewrite positions_cons. simpl. split; [lia|apply IH].
  - destruct (String.eqb (src !!! i) (dst !!! j)).
    + eapply descending_below_mono; [|apply (IH i j)]. lia.
    + destruct (D (S i) j <? D i (S j)); rewrite positions_cons; simpl.
      * apply (IH (S i) j).
      * split; [lia|apply IH].
Qed.

(** Along the first row only insertions remain, along the first column
    only deletions. *)
Lemma trace_first_row fuel :
  forall j, (j <= m2)%nat -> (j <= fuel)%nat ->
    rev (trace src dst fuel O j) =
      imap (fun k l => mkMove ADD (Z.of_nat k) l) (take j dst).
Proof.
  induction fuel as [|fuel IH]; intros j Hj Hf.
  - assert (j = O) as -> by lia. by rewrite take_0.
  - destruct j as [|j]; cbn [trace]; [by rewrite take_0|].
    rewrite (take_S_r dst j (dst !!! j))
      by (apply list_lookup_lookup_total_lt; lia).
    rewrite imap_app, length_take. simpl. rewrite IH by lia.
    do 3 f_equal. lia.
Qed.

Lemma trace_first_col fuel :
  forall i, (i <= m1)%nat -> (i <= fuel)%nat ->
    rev (trace src dst fuel i O) =
      imap (fun k l => mkMove REMOVE (Z.of_nat k) l) (take i src).
Proof.
  induction fuel as [|fuel IH]; intros i Hi Hf.
  - assert (i = O) as -> by lia. by rewrite take_0.
  - destruct i as [|i]; cbn [trace]; [by rewrite take_0|].
    rewrite (take_S_r src i (src !!! i))
      by (apply list_lookup_lookup_total_lt; lia).
    rewrite imap_app, length_take. simpl. rewrite IH by lia.
    do 3 f_equal. lia.
Qed.

End Fill.

(** ** The patch returned by [edit_distance] *)

Lemma trace_same (S : list string) fuel : forall i, trace S S fuel i i = [].
Proof.
  induction fuel as [|fuel IH]; intros i; [done|].
  destruct i as [|i]; cbn [trace]; [done|].
  by rewrite String.eqb_refl.
Qed.

Lemma positions_rev a l : positions a (rev l) = rev (positions a l).
Proof.
  unfold positions. induction l as [|mv l IH]; [done|]. simpl.
  rewrite filter_app, map_app, IH, !filter_cons, filter_nil.
  destruct (decide (action mv = a)); simpl; [done|].
  by rewrite app_nil_r.
Qed.

Lemma descending_below_Forall b l :
  descending_below b l -> Forall (fun x => x < b) l.
Proof.
  revert b. induction l as [|x l IH]; intros b; simpl; [constructor|].
  intros [Hx Hl]. constructor; [done|].
  eapply Forall_impl; [by apply IH|]. simpl. lia.
Qed.

Lemma descending_rev_sorted b l :
  descending_below b l -> StronglySorted Z.lt (rev l).
Proof.
  revert b. induction l as [|x l IH]; intros b; simpl; [constructor|].
  intros [Hx Hl]. apply StronglySorted_app. split_and!.
  - intros x1 x2 H1 ->%list_elem_of_singleton.
    apply descending_below_Forall in Hl.
    rewrite Forall_forall in Hl. apply Hl.
    apply list_elem_of_In, in_rev. by apply list_elem_of_In.
  - by eapply IH.
  - repeat constructor.
Qed.

Lemma imap_positions (a : ascii) (l : list string) k :
  In k (map n (imap (fun k l => mkMove a (Z.of_nat k) l) l)) <->
  0 <= k < Z.of_nat (length l).
Proof.
  rewrite <- list_elem_of_In, list_elem_of_lookup. split.
  - intros (i & Hi). rewrite list_lookup_fmap, list_lookup_imap in Hi.
    destruct (l !! i) as [x|] eqn:E; simplify_eq/=.
    apply lookup_lt_Some in E. lia.
  - intros Hk. exists (Z.to_nat k).
    rewrite list_lookup_fmap, list_lookup_imap.
    destruct (lookup_lt_is_Some_2 l (Z.to_nat k)) as [x ->]; [lia|].
    simpl. f_equal. lia.
Qed.

Lemma move_of_action (S D : list string) i j mv :
  move_of S D i j mv -> action mv = ADD \/ action mv = REMOVE.
Proof. intros (k & _ & [(Ha & _)|(Ha & _)]); auto. Qed.

(** [edit_distance] is total; its patch has as many moves as the distance,
    each move inserts a line of the destination at its index or deletes a
    line of the source at its index, and each kind comes in ascending
    order of position. *)
Lemma edit_distance_patch (S D : list string) :
  exists patch,
    edit_distance S D = Ok patch /\
    length patch = LevenshteinLineDistance S D /\
    Forall (move_of S D (length S) (length D)) patch /\
    StronglySorted Z.lt (positions ADD patch) /\
    StronglySorted Z.lt (positions REMOVE patch).
Proof.
  eexists. split; [apply edit_distance_trace|].
  rewrite !positions_rev. split_and!.
  - rewrite length_rev. apply Nat2Z.inj.
    rewrite trace_length by lia. unfold prefix_distance.
    by rewrite !take_ge, lev_rev by lia.
  - apply List.Forall_forall. intros mv Hin%in_rev.
    pose proof (trace_moves S D (length S + length D) (length S) (length D)
                  (Nat.le_refl _) (Nat.le_refl _)) as Hall.
    rewrite List.Forall_forall in Hall. by apply Hall.
  - eapply descending_rev_sorted, trace_positions_add.
  - eapply descending_rev_sorted, trace_positions_remove.
Qed.

(** The length of the patch is also the length of a shortest edit script. *)
Lemma edit_distance_shortest_script (S D : list string) :
  exists patch,
    edit_distance S D = Ok patch /\
    edits S D (length patch) /\
    forall k, edits S D k -> (length patch <= k)%nat.
Proof.
  destruct (edit_distance_patch S D) as (patch & Hp & Hlen & _).
  exists patch. rewrite Hlen. split_and!; [done|apply lev_edits|].
  intros k. apply edits_lev_le.
Qed.

(** C5. For every pair of sequences, [edit_distance] returns a patch whose
    number of operations is the insert/delete-only Levenshtein distance
    (the classic recurrence without substitution, which is the length of a
    shortest edit script), and every operation of the patch is an
    Insert or a Delete: no substitution is emitted. *)
Theorem edit_distance_minimal (S D : list string) :
  exists patch,
    edit_distance S D = Ok patch /\
    length patch = LevenshteinLineDistance S D /\
    Forall (fun mv => action mv = ADD \/ action mv = REMOVE) patch.
Proof.
  destruct (edit_distance_patch S D) as (patch & Hp & Hlen & Hall & _).
  exists patch. split_and!; [done..|].
  eapply Forall_impl; [exact Hall|]. intros mv. apply move_of_action.
Qed.

(** The tie-break as one pass through the loop body shows it, on any state of
    the tables: REMOVE is written first, and ADD overwrites it only when the
    insert cost is strictly smaller. *)
Lemma cell_tie_break (src dst : list string) (t : tables) (i j : nat) :
  dims (length src) (length dst) (distances t) ->
  dims (length src) (length dst) (actions t) ->
  (i <= length src)%nat -> (j <= length dst)%nat ->
  String.eqb (src !!! (i - 1)%nat) (dst !!! (j - 1)%nat) = false ->
  tget (actions (cell src dst i j t)) i j =
    if tget (distances t) i (j - 1) <? tget (distances t) (i - 1) j
    then ADD else REMOVE.
Proof.
  intros Hd Ha Hi Hj Hne.
  destruct (cell_effect src dst t i j Hd Ha Hi Hj) as (_ & _ & _ & _ & Hact).
  by rewrite Hact, Hne.
Qed.

(** C6. In the tables computed by [edit_distance], at every cell (i,j)
    with [src[i-1] <> dst[j-1]]: when the delete cost [D[i-1][j]] equals the
    insert cost [D[i][j-1]] the cell is tagged REMOVE; it is tagged ADD
    exactly when the insert cost is strictly smaller, and REMOVE
    otherwise; the distance stored is one more than the smaller cost. *)
Theorem tie_break_prefers_delete (src dst : list string) (i j : nat) :
  (1 <= i <= length src)%nat -> (1 <= j <= length dst)%nat ->
  src !!! (i - 1)%nat <> dst !!! (j - 1)%nat ->
  let t := fill src dst in
  let remove := tget (distances t) (i - 1) j in
  let add := tget (distances t) i (j - 1) in
  (remove = add -> tget (actions t) i j = REMOVE) /\
  (tget (actions t) i j = ADD <-> add < remove) /\
  (tget (actions t) i j = REMOVE <-> remove <= add) /\
  tget (distances t) i j = Z.min remove add + 1.
Proof.
  intros Hi Hj Hne. simpl.
  destruct i as [|i]; [lia|]. destruct j as [|j]; [lia|].
  replace (S i - 1)%nat with i in * by lia.
  replace (S j - 1)%nat with j in * by lia.
  rewrite !fill_distance, fill_action by lia.
  rewrite prefix_distance_S by lia. simpl.
  destruct (String.eqb_spec (src !!! i) (dst !!! j)) as [|_]; [done|].
  destruct (Z.ltb_spec (prefix_distance src dst (S i) j)
                       (prefix_distance src dst i (S j)));
    split_and!; try done; try lia; (split; [done|lia]) || (split; [lia|done]).
Qed.

(** The tie at cell (1,1) of the tables for [a] against [b]. *)
Lemma tie_break_prefers_delete_witness :
  tget (distances (fill ["a"] ["b"])) 0 1 = tget (distances (fill ["a"] ["b"])) 1 0 /\
  tget (actions (fill ["a"] ["b"])) 1 1 = REMOVE.
Proof.
  split; [reflexivity|].
  refine (proj1 (tie_break_prefers_delete ["a"] ["b"] 1 1 _ _ _) _).
  - simpl. lia.
  - simpl. lia.
  - discriminate.
  - reflexivity.
Defined.

(** C7. With an empty source the patch is exactly one Insert per
    destination line, at positions 0 .. |D|-1 in order, each carrying its
    line; with an empty destination it is one Delete per source line, whose
    positions are exactly the set {0, ..., |S|-1}; the patch between a
    sequence and itself is empty. *)
Theorem edit_distance_degenerate :
  (forall D, edit_distance [] D =
               Ok (imap (fun k l => mkMove ADD (Z.of_nat k) l) D)) /\
  (forall S, exists patch,
      edit_distance S [] = Ok patch /\
      patch = imap (fun k l => mkMove REMOVE (Z.of_nat k) l) S /\
      length patch = length S /\
      Forall (fun mv => action mv = REMOVE) patch /\
      (forall k, In k (map n patch) <-> 0 <= k < Z.of_nat (length S))) /\
  (forall S, edit_distance S S = Ok []).
Proof.
  split_and!.
  - intros D. rewrite edit_distance_trace. simpl.
    rewrite trace_first_row by (simpl; lia). by rewrite take_ge by lia.
  - intros S. eexists. split; [apply edit_distance_trace|].
    simpl. rewrite Nat.add_0_r, trace_first_col by lia.
    rewrite take_ge by lia. split_and!; [done| | |].
    + by rewrite length_imap.
    + apply Forall_forall. intros mv (k & Hk)%list_elem_of_lookup.
      rewrite list_lookup_imap in Hk.
      destruct (S !! k); by simplify_eq/=.
    + apply imap_positions.
  - intros S. by rewrite edit_distance_trace, trace_same.
Qed.

(** C9 as stated fails: the patch from [a,b,c,k] to [k,z] deletes at
    positions 0, 1, 2 and then inserts at position 1. *)
Lemma positions_not_ascending :
  edit_distance ["a"; "b"; "c"; "k"] ["k"; "z"] =
    Ok [mkMove REMOVE 0 "a"; mkMove REMOVE 1 "b"; mkMove REMOVE 2 "c";
        mkMove ADD 1 "z"] /\
  ~ ascending_positions
      [mkMove REMOVE 0 "a"; mkMove REMOVE 1 "b"; mkMove REMOVE 2 "c";
       mkMove ADD 1 "z"].
Proof.
  split; [reflexivity|].
  intros H. specialize (H 2%nat _ _ eq_refl eq_refl). simpl in H. lia.
Qed.

(** C9, amended. In the patch returned by [edit_distance] the positions of
    the Insert operations are strictly ascending in list order, and so are
    the positions of the Delete operations; Insert positions index the
    destination and Delete positions index the source, and no order holds
    between the positions of an Insert and of a Delete. *)
Theorem positions_ascending_per_action (S D : list string) :
  exists patch,
    edit_distance S D = Ok patch /\
    StronglySorted Z.lt (positions ADD patch) /\
    StronglySorted Z.lt (positions REMOVE patch) /\
    Forall (move_of S D (length S) (length D)) patch.
Proof.
  destruct (edit_distance_patch S D) as (patch & Hp & _ & Hall & Hadd & Hdel).
  by exists patch.
Qed.

(** ** Serialization and deserialization *)

Section Records.

Lemma digit_char_spec d :
  0 <= d < 10 -> isdigit (digit_char d) = true /\ code (digit_char d) - 48 = d.
Proof.
  intros Hd.
  assert (Hcases : d = 0 \/ d = 1 \/ d = 2 \/ d = 3 \/ d = 4 \/ d = 5 \/
                   d = 6 \/ d = 7 \/ d = 8 \/ d = 9) by lia.
  repeat (destruct Hcases as [->|Hcases]; [by vm_compute|]).
  subst d. by vm_compute.
Qed.

Lemma isdigit_not_space c : isdigit c = true -> isspace c = false.
Proof. unfold isdigit, isspace. lia. Qed.

Lemma isdigit_not_sign c :
  isdigit c = true -> Ascii.eqb c "-" = false /\ Ascii.eqb c "+" = false.
Proof.
  intros Hc. split.
  - destruct (Ascii.eqb_spec c "-") as [->|]; [by vm_compute in Hc|done].
  - destruct (Ascii.eqb_spec c "+") as [->|]; [by vm_compute in Hc|done].
Qed.

Lemma to_digits_app fuel : forall v acc r,
  to_digits fuel v acc +:+ r = to_digits fuel v (acc +:+ r).
Proof.
  induction fuel as [|fuel IH]; intros v acc r; simpl; [done|].
  destruct (v <? 10); [done|]. by rewrite IH.
Qed.

Lemma to_digits_head fuel : forall v acc,
  0 <= v ->
  exists c rest, to_digits (S fuel) v acc = String c rest /\ isdigit c = true.
Proof.
  induction fuel as [|fuel IH]; intros v acc Hv.
  - simpl. destruct (v <? 10); eexists _, _; (split; [done|]);
      apply digit_char_spec, Z.mod_pos_bound; lia.
  - change (to_digits (S (S fuel)) v acc) with
      (if v <? 10 then String (digit_char (v mod 10)) acc
       else to_digits (S fuel) (v / 10) (String (digit_char (v mod 10)) acc)).
    destruct (v <? 10).
    + eexists _, _. split; [done|].
      apply digit_char_spec, Z.mod_pos_bound. lia.
    + apply IH. apply Z.div_pos; lia.
Qed.

(** Reading back the digits that [to_digits] wrote. *)
Lemma digits_to_digits fuel : forall v acc seen,
  0 <= v < 10 ^ Z.of_nat (S fuel) ->
  digits (to_digits (S fuel) v acc) 0 seen = digits acc v true.
Proof.
  assert (Hone : forall v acc a seen, 0 <= v ->
    digits (String (digit_char (v mod 10)) acc) a seen =
    digits acc (a * 10 + v mod 10) true).
  { intros v acc a seen Hv. simpl.
    destruct (digit_char_spec (v mod 10)) as [-> ->]; [|done].
    apply Z.mod_pos_bound. lia. }
  induction fuel as [|fuel IH]; intros v acc seen Hv.
  - simpl to_digits.
    assert (v mod 10 = v) as Hm by (apply Z.mod_small; simpl in Hv; lia).
    destruct (v <? 10); rewrite Hone by lia; by rewrite Hm.
  - change (to_digits (S (S fuel)) v acc) with
      (if v <? 10 then String (digit_char (v mod 10)) acc
       else to_digits (S fuel) (v / 10) (String (digit_char (v mod 10)) acc)).
    destruct (Z.ltb_spec v 10).
    + rewrite Hone by lia. by rewrite Z.mod_small by lia.
    + rewrite IH.
      * rewrite Hone by lia. f_equal.
        rewrite (Z.div_mod v 10) at 3 by lia. lia.
      * split; [apply Z.div_pos; lia|].
        apply Z.div_lt_upper_bound; [lia|].
        rewrite Nat2Z.inj_succ, Z.pow_succ_r in Hv by lia. lia.
Qed.

Lemma until_newline_free l :
  newline_free l = true -> until_newline l = (l, "", false).
Proof.
  induction l as [|c l IH]; simpl; [done|].
  intros [Hc Hl]%andb_true_iff. apply negb_true_iff in Hc.
  by rewrite Hc, IH.
Qed.

(** Extracting the position that [std::to_string] printed. *)
Lemma get_int_to_string v l old :
  0 <= v <= INT_MAX ->
  get_int (mkStream (String " " (to_string v +:+ String " " l)) true) old =
    (mkStream (String " " l) true, v).
Proof.
  intros Hv. unfold to_string.
  destruct (Z.ltb_spec v 0); [lia|].
  rewrite to_digits_app. change ("" +:+ String " " l) with (String " " l).
  destruct (to_digits_head 9 v (String " " l)) as (c & rest & Hd & Hc); [lia|].
  pose proof (digits_to_digits 9 v (String " " l) false) as Hread.
  rewrite Hd in Hread.
  unfold get_int. cbn [good buf]. cbn [skipws].
  change (isspace " ") with true. cbv iota.
  rewrite Hd. cbn [skipws]. rewrite (isdigit_not_space c Hc).
  destruct (isdigit_not_sign c Hc) as [-> ->].
  rewrite Hread by (unfold INT_MAX in Hv; simpl; lia).
  simpl digits. cbv beta iota.
  replace (INT_MAX <? v) with false by (symmetry; apply Z.ltb_ge; lia).
  replace (v <? INT_MIN) with false
    by (symmetry; apply Z.ltb_ge; unfold INT_MIN; lia).
  done.
Qed.

Lemma serialize_unfold mv :
  serialize mv =
    String (action mv) (String " " (to_string (n mv) +:+ String " " (line mv))).
Proof. reflexivity. Qed.

Lemma parse_serialize mv :
  printable mv -> parse_record (serialize mv) = Ok (Accepted mv).
Proof.
  destruct mv as [a v l]. intros (Ha & Hv & Hl). simpl in *.
  rewrite serialize_unfold. unfold parse_record. cbn [action n line].
  unfold get_char. cbn [good buf skipws].
  assert (isspace a = false) as -> by (by destruct Ha as [->| ->]).
  rewrite get_int_to_string by done.
  assert (negb (Ascii.eqb a ADD) && negb (Ascii.eqb a REMOVE) && negb (v =? -1)
          = false) as -> by (by destruct Ha as [->| ->]).
  unfold getline. cbn [good buf].
  change (until_newline (String " " l)) with
    (let '(l0, r, found) := until_newline l in (String " " l0, r, found)).
  by rewrite until_newline_free.
Qed.

Lemma serialize_nonempty mv : String.eqb (serialize mv) "" = false.
Proof. by rewrite serialize_unfold. Qed.

Lemma parse_rows_serialize patch_path patch :
  Forall printable patch ->
  forall row st,
    parse_rows patch_path row (map serialize patch) st =
      Ok (mkParse (ok st) (errors st) (patch_of st ++ patch)).
Proof.
  induction 1 as [|mv patch Hmv _ IH]; intros row st.
  - simpl. rewrite app_nil_r. by destruct st.
  - cbn [map parse_rows]. rewrite serialize_nonempty, parse_serialize by done.
    simpl. rewrite IH. simpl. by rewrite <- app_assoc.
Qed.

Lemma malformed_action l :
  parse_record l = Ok Malformed ->
  exists a, action_token l = Some a /\ a <> ADD /\ a <> REMOVE.
Proof.
  unfold parse_record, action_token, get_char. cbn [good buf].
  destruct (skipws l) as [|a rest]; [by destruct (get_int _ _)|].
  destruct (get_int _ _) as [iss rn].
  destruct (Ascii.eqb_spec a ADD) as [->|Ha]; simpl.
  { by destruct (getline _ _). }
  destruct (Ascii.eqb_spec a REMOVE) as [->|Hr]; simpl.
  { by destruct (getline _ _). }
  intros _. by exists a.
Qed.

End Records.

(** ** The sort of the patch subcommand *)

Section Sort.

Lemma move_lt_cases p1 p2 :
  move_lt p1 p2 = true <->
  n p1 < n p2 \/ (n p1 = n p2 /\ code (action p1) < code (action p2)).
Proof.
  unfold move_lt. destruct (Z.eqb_spec (n p1) (n p2)) as [Heq|Hne].
  - rewrite Z.ltb_lt. lia.
  - rewrite Z.ltb_lt. lia.
Qed.

Lemma move_le_cases p1 p2 :
  move_le p1 p2 <->
  n p1 < n p2 \/ (n p1 = n p2 /\ code (action p1) <= code (action p2)).
Proof.
  unfold move_le. rewrite <- not_true_iff_false, move_lt_cases. lia.
Qed.

Lemma move_le_trans p1 p2 p3 : move_le p1 p2 -> move_le p2 p3 -> move_le p1 p3.
Proof. rewrite !move_le_cases. lia. Qed.

Lemma move_lt_le p1 p2 : move_lt p1 p2 = true -> move_le p1 p2.
Proof. rewrite move_lt_cases, move_le_cases. lia. Qed.

Lemma sort_insert_perm mv l : sort_insert mv l ≡ₚ mv :: l.
Proof.
  induction l as [|x l IH]; simpl; [done|].
  destruct (move_lt x mv); [|done].
  rewrite IH. apply Permutation_swap.
Qed.

Lemma sort_moves_perm l : sort_moves l ≡ₚ l.
Proof.
  induction l as [|x l IH]; simpl; [done|].
  by rewrite sort_insert_perm, IH.
Qed.

Lemma sort_insert_sorted mv l :
  StronglySorted move_le l -> StronglySorted move_le (sort_insert mv l).
Proof.
  induction 1 as [|x l Hl IH Hx]; simpl; [by repeat constructor|].
  destruct (move_lt x mv) eqn:Hlt.
  - constructor; [done|]. rewrite sort_insert_perm.
    constructor; [by apply move_lt_le|done].
  - constructor; [by constructor|]. constructor; [done|].
    eapply Forall_impl; [exact Hx|]. intros y. by apply move_le_trans.
Qed.

(** The embedding of [std::sort] returns a sorted permutation of the patch. *)
Lemma sort_moves_sorted l : StronglySorted move_le (sort_moves l).
Proof.
  induction l as [|x l IH]; simpl; [constructor|]. by apply sort_insert_sorted.
Qed.

End Sort.

(** ** The text written by [diff], read back as a patch file *)

Section Text.

Lemma append_cons c (s r : string) : String c s +:+ r = String c (s +:+ r).
Proof. reflexivity. Qed.

Lemma append_nil_r (s : string) : s +:+ "" = s.
Proof.
  induction s as [|c s IH]; [done|]. by rewrite append_cons, IH.
Qed.

Lemma append_snoc (s : string) c r : (s +:+ String c "") +:+ r = s +:+ String c r.
Proof.
  induction s as [|x s IH]; [done|]. by rewrite !append_cons, IH.
Qed.

Lemma newline_free_app a b :
  newline_free (a +:+ b) = newline_free a && newline_free b.
Proof.
  induction a as [|c a IH]; [done|].
  rewrite append_cons. simpl. by rewrite IH, andb_assoc.
Qed.

Lemma isdigit_not_newline c : isdigit c = true -> Ascii.eqb c newline = false.
Proof.
  intros Hc. destruct (Ascii.eqb_spec c newline) as [->|]; [by vm_compute in Hc|done].
Qed.

Lemma to_digits_newline_free fuel : forall v acc,
  0 <= v -> newline_free acc = true -> newline_free (to_digits fuel v acc) = true.
Proof.
  induction fuel as [|fuel IH]; intros v acc Hv Hacc; simpl; [done|].
  assert (Hd : newline_free (String (digit_char (v mod 10)) acc) = true).
  { simpl. rewrite Hacc, isdigit_not_newline; [done|].
    apply digit_char_spec, Z.mod_pos_bound. lia. }
  destruct (v <? 10); [done|]. apply IH; [|done]. apply Z.div_pos; lia.
Qed.

Lemma serialize_newline_free mv :
  printable mv -> newline_free (serialize mv) = true.
Proof.
  intros (Ha & Hv & Hl). rewrite serialize_unfold.
  cbn [newline_free]. rewrite newline_free_app. cbn [newline_free].
  unfold to_string. destruct (Z.ltb_spec (n mv) 0); [lia|].
  rewrite to_digits_newline_free, Hl by (done || lia).
  by destruct Ha as [-> | ->].
Qed.

Lemma read_lines_line l : forall rest cur extracted,
  newline_free l = true ->
  read_lines (l +:+ String newline rest) cur extracted =
    (cur +:+ l) :: read_lines rest "" false.
Proof.
  induction l as [|c l IH]; intros rest cur extracted Hl.
  - change ("" +:+ String newline rest) with (String newline rest).
    simpl. by rewrite append_nil_r.
  - simpl in Hl. apply andb_true_iff in Hl as [Hc Hl].
    apply negb_true_iff in Hc.
    rewrite append_cons. cbn [read_lines]. rewrite Hc, IH by done.
    by rewrite append_snoc.
Qed.

(** Reading back what was printed line by line gives the lines. *)
Lemma read_print_lines ls :
  Forall (fun l => newline_free l = true) ls ->
  read_entire_file (print_lines ls) = ls.
Proof.
  unfold read_entire_file.
  induction 1 as [|l ls Hl _ IH]; simpl; [done|].
  by rewrite read_lines_line, IH.
Qed.

End Text.

(** The validation flags a record exactly when its action token is neither
    [+] nor [-] and, in addition, the position read is not -1. *)
Lemma malformed_iff l :
  parse_record l = Ok Malformed <->
  exists a, action_token l = Some a /\ a <> ADD /\ a <> REMOVE /\
            position_read l <> -1.
Proof.
  unfold parse_record, action_token, position_read, get_char. cbn [good buf].
  destruct (skipws l) as [|a rest]; cbn [fst].
  { destruct (get_int _ _). split; [done|]. by intros (a & ? & _). }
  destruct (get_int _ _) as [iss rn]. cbn [snd].
  destruct (Ascii.eqb_spec a ADD) as [->|Ha]; simpl.
  { destruct (getline _ _). split; [done|]. by intros (a & [= <-] & ? & _). }
  destruct (Ascii.eqb_spec a REMOVE) as [->|Hr]; simpl.
  { destruct (getline _ _). split; [done|]. by intros (a & [= <-] & _ & ? & _). }
  destruct (Z.eqb_spec rn (-1)) as [->|Hn]; simpl.
  - destruct (getline _ _). split; [done|]. by intros (a' & _ & _ & _ & ?).
  - split; [|done]. intros _. by exists a.
Qed.

(** Every line that [read_entire_file] returns is free of newlines. *)
Lemma newline_free_snoc l c :
  newline_free l = true -> Ascii.eqb c newline = false ->
  newline_free (l +:+ String c "") = true.
Proof.
  intros Hl Hc. induction l as [|x l IH]; simpl in *.
  - by rewrite Hc.
  - apply andb_true_iff in Hl as [-> Hl]. by apply IH.
Qed.

Lemma read_lines_newline_free content :
  forall l extracted,
    newline_free l = true ->
    Forall (fun l => newline_free l = true) (read_lines content l extracted).
Proof.
  induction content as [|c rest IH]; intros l extracted Hl; cbn [read_lines].
  - destruct extracted; by repeat constructor.
  - destruct (Ascii.eqb c newline) eqn:Hc.
    + constructor; [done|]. by apply IH.
    + apply IH. by apply newline_free_snoc.
Qed.

Lemma read_entire_file_newline_free content :
  Forall (fun l => newline_free l = true) (read_entire_file content).
Proof. by apply read_lines_newline_free. Qed.

(** The moves of a patch of [edit_distance] over newline-free lines that
    fit an [int] are printable. *)
Lemma move_of_printable (S D : list string) mv :
  Forall (fun l => newline_free l = true) S ->
  Forall (fun l => newline_free l = true) D ->
  Z.of_nat (length S) <= INT_MAX -> Z.of_nat (length D) <= INT_MAX ->
  move_of S D (length S) (length D) mv -> printable mv.
Proof.
  intros HS HD HlS HlD (k & Hn & [(Ha & Hk & Hl)|(Ha & Hk & Hl)]).
  - split_and!; [by left|lia|lia|]. by apply (Forall_lookup_1 _ _ _ _ HD Hl).
  - split_and!; [by right|lia|lia|]. by apply (Forall_lookup_1 _ _ _ _ HS Hl).
Qed.

(** C8. For every patch produced by [edit_distance] on lines that hold no
    newline (and sequences whose indices fit an [int]), the records that
    [diff] prints deserialize, without any error, to the same patch: every
    operation's action, position and line content survives, leading spaces
    of the content included.  This holds for the records as lines and for
    the printed text read back with [read_entire_file].  The list read back
    is the patch itself, so in particular the same set of operations. *)
Theorem serialization_round_trip (patch_path : string) (S D : list string) :
  Forall (fun l => newline_free l = true) S ->
  Forall (fun l => newline_free l = true) D ->
  Z.of_nat (length S) <= INT_MAX -> Z.of_nat (length D) <= INT_MAX ->
  exists patch,
    edit_distance S D = Ok patch /\
    diff_output S D = Ok (map serialize patch) /\
    deserialize patch_path (map serialize patch) = Ok (mkParse true [] patch) /\
    deserialize patch_path (read_entire_file (print_lines (map serialize patch)))
      = Ok (mkParse true [] patch).
Proof.
  intros HS HD HlS HlD.
  destruct (edit_distance_patch S D) as (patch & Hp & _ & Hall & _).
  assert (Hpr : Forall printable patch).
  { eapply Forall_impl; [exact Hall|]. intros mv. by apply move_of_printable. }
  assert (Hde : deserialize patch_path (map serialize patch)
                = Ok (mkParse true [] patch)).
  { unfold deserialize. by rewrite parse_rows_serialize. }
  exists patch. split_and!; [done| |done|].
  - unfold diff_output. by rewrite Hp.
  - rewrite read_print_lines; [done|].
    apply Forall_fmap. eapply Forall_impl; [exact Hpr|].
    intros mv. apply serialize_newline_free.
Qed.

(** The round trip of the patch from [a, b] to [b, "  c"]. *)
Lemma serialization_round_trip_witness :
  exists patch,
    edit_distance ["a"; "b"] ["b"; "  c"] = Ok patch /\
    diff_output ["a"; "b"] ["b"; "  c"] = Ok (map serialize patch) /\
    deserialize "f.patch" (map serialize patch) = Ok (mkParse true [] patch) /\
    deserialize "f.patch" (read_entire_file (print_lines (map serialize patch)))
      = Ok (mkParse true [] patch).
Proof.
  apply (serialization_round_trip "f.patch" ["a"; "b"] ["b"; "  c"]).
  - repeat constructor.
  - repeat constructor.
  - vm_compute. discriminate.
  - vm_compute. discriminate.
Defined.

(** C4 as stated fails: a record with the action token [A] (or [R]) is
    flagged as malformed, and [diff] prints [+] for an Insert and [-] for a
    Delete. *)
Lemma action_symbols_are_plus_minus :
  parse_record "A 0 x" = Ok Malformed /\
  parse_record "R 0 x" = Ok Malformed /\
  diff_output ["a"] ["x"] = Ok ["+ 0 x"; "- 0 a"].
Proof. by vm_compute. Qed.

(** C4, amended. The action token of a record is [+] for Insert and [-]
    for Delete.  A record made of such an action token, a space, a
    non-negative decimal position that fits an [int], a space and the
    content deserializes to that very operation and is not flagged; every
    record that deserialization flags as malformed has an action token
    other than [+] and [-]; and [diff] prints its patch in this format. *)
Theorem record_format (a : ascii) (v : Z) (l : string) :
  (a = ADD \/ a = REMOVE) -> 0 <= v <= INT_MAX -> newline_free l = true ->
  ADD = "+"%char /\ REMOVE = "-"%char /\
  serialize (mkMove a v l) = String a (String " " (to_string v +:+ String " " l)) /\
  parse_record (serialize (mkMove a v l)) = Ok (Accepted (mkMove a v l)) /\
  (forall r, parse_record r = Ok Malformed ->
     exists c, action_token r = Some c /\ c <> "+"%char /\ c <> "-"%char) /\
  (forall S D, exists patch,
     edit_distance S D = Ok patch /\
     diff_output S D = Ok (map serialize patch) /\
     Forall (fun mv => action mv = "+"%char \/ action mv = "-"%char) patch).
Proof.
  intros Ha Hv Hl. split_and!; [done|done|done| | |].
  - by apply parse_serialize.
  - apply malformed_action.
  - intros S D. destruct (edit_distance_patch S D) as (patch & Hp & _ & Hall & _).
    exists patch. split_and!; [done| |].
    + unfold diff_output. by rewrite Hp.
    + eapply Forall_impl; [exact Hall|]. intros mv. apply move_of_action.
Qed.

(** An Insert record whose content starts with two spaces. *)
Lemma record_format_witness :
  parse_record (serialize (mkMove ADD 12 "  two leading spaces")) =
    Ok (Accepted (mkMove ADD 12 "  two leading spaces")).
Proof.
  refine (proj1 (proj2 (proj2 (proj2
    (record_format ADD 12 "  two leading spaces" _ _ _))))).
  - by left.
  - vm_compute. split; discriminate.
  - reflexivity.
Defined.

(** C1 fails on the code: the patch from [a,b] to [b,c] is a Delete at
    source index 0 and an Insert at destination index 1; applied highest
    position first, the Insert lands at index 1 of the unchanged source and
    the result is [c,b], not [b,c]. *)
Lemma round_trip_fails :
  edit_distance ["a"; "b"] ["b"; "c"] =
    Ok [mkMove REMOVE 0 "a"; mkMove ADD 1 "c"] /\
  apply_patch ["a"; "b"] [mkMove REMOVE 0 "a"; mkMove ADD 1 "c"] =
    Ok ["c"; "b"] /\
  (lines2 ← diff_output ["a"; "b"] ["b"; "c"];
   patch_run "f.patch" ["a"; "b"] lines2) =
    Ok (mkOutput ["c"; "b"] 0 (Some ["c"; "b"])).
Proof. by vm_compute. Qed.

(** C2 fails on the code: the patch from the empty sequence to [a,b]
    inserts at positions 0 and 1; applied highest position first, the
    Insert at position 1 meets an empty working sequence. *)
Lemma insert_out_of_range :
  edit_distance [] ["a"; "b"] = Ok [mkMove ADD 0 "a"; mkMove ADD 1 "b"] /\
  rev (sort_moves [mkMove ADD 0 "a"; mkMove ADD 1 "b"]) =
    [mkMove ADD 1 "b"; mkMove ADD 0 "a"] /\
  insert_at [] 1 "b" = Undefined /\
  apply_patch [] [mkMove ADD 0 "a"; mkMove ADD 1 "b"] = Undefined.
Proof. by vm_compute. Qed.

(** C3 fails on the code: a record with a recognized action and a position
    token that is not a number is not reported; the position reads as 0,
    the content as empty, and the patch is applied. *)
Lemma non_integer_position_accepted :
  parse_record "+ abc hello" = Ok (Accepted (mkMove ADD 0 "")) /\
  patch_run "f.patch" ["a"] ["+ abc hello"] =
    Ok (mkOutput [""; "a"] 0 (Some [""; "a"])) /\
  patch_run "f.patch" ["a"; "b"] ["- 1 b"; "+ abc hello"] =
    Ok (mkOutput [""; "a"] 0 (Some [""; "a"])).
Proof. by vm_compute. Qed.

(** C10. The record [x -1 text] has an action character that is neither
    [+] nor [-] and a position that reads as -1; the validation accepts it,
    it is pushed into the patch, and the apply loop reaches its
    [assert(false)], whatever the source file holds. *)
Theorem assertion_reachable (patch_path : string) (lines1 : list string) :
  action_token "x -1 text" = Some "x"%char /\
  Ascii.eqb "x" ADD = false /\ Ascii.eqb "x" REMOVE = false /\
  parse_record "x -1 text" = Ok (Accepted (mkMove "x" (-1) "text")) /\
  deserialize patch_path ["x -1 text"] =
    Ok (mkParse true [] [mkMove "x" (-1) "text"]) /\
  patch_run patch_path lines1 ["x -1 text"] = AssertFailed.
Proof. split_and!; reflexivity. Qed.

(** * Further properties of the code *)

(** ** Definitions used to state them *)

(** The lines of [l] whose index, counted from [i], is not in [ks]. *)
Fixpoint keep_from (ks : list Z) (i : Z) (l : list string) : list string :=
  match l with
  | [] => []
  | x :: rest =>
    if bool_decide (i ∈ ks) then keep_from ks (i + 1) rest
    else x :: keep_from ks (i + 1) rest
  end.

(** The lines of [l] that are left when those at the positions [ks] go. *)
Definition remove_at (ks : list Z) (l : list string) : list string :=
  keep_from ks 0 l.

(** Edit scripts are symmetric, compose, and of length 0 only between equal
    sequences. *)
Lemma edits_sym s d k : edits s d k -> edits d s k.
Proof. induction 1; by constructor. Qed.

Lemma edits_zero s d : edits s d 0 -> s = d.
Proof.
  intros H. remember 0%nat as k eqn:Hk.
  induction H as [|a s d k _ IH|a s d k _ IH|b s d k _ IH]; try done.
  by rewrite IH.
Qed.

Lemma edits_refl s : edits s s 0.
Proof. induction s; by constructor. Qed.

Lemma edits_trans a b k1 :
  edits a b k1 ->
  forall c k2, edits b c k2 -> exists k, (k <= k1 + k2)%nat /\ edits a c k.
Proof.
  induction 1 as [|x a b k1 _ IH|x a b k1 _ IH|y a b k1 _ IH]; intros c k2 H2.
  - exists k2. split; [lia|done].
  - remember (x :: b) as b0 eqn:Eb. revert b Eb IH.
    induction H2 as [|x' b' c k2 H2 _|x' b' c k2 H2 _|z b' c k2 H2 IH2];
      intros b Eb IH.
    + discriminate.
    + injection Eb as -> ->. destruct (IH _ _ H2) as (k & Hk & He).
      exists k. split; [lia|by constructor].
    + injection Eb as -> ->. destruct (IH _ _ H2) as (k & Hk & He).
      exists (S k). split; [lia|by constructor].
    + destruct (IH2 b Eb IH) as (k & Hk & He).
      exists (S k). split; [lia|by constructor].
  - destruct (IH _ _ H2) as (k & Hk & He).
    exists (S k). split; [lia|by constructor].
  - remember (y :: b) as b0 eqn:Eb. revert b Eb IH.
    induction H2 as [|x' b' c k2 H2 _|x' b' c k2 H2 _|z b' c k2 H2 IH2];
      intros b Eb IH.
    + discriminate.
    + injection Eb as -> ->. destruct (IH _ _ H2) as (k & Hk & He).
      exists (S k). split; [lia|by constructor].
    + injection Eb as -> ->. destruct (IH _ _ H2) as (k & Hk & He).
      exists k. split; [lia|done].
    + destruct (IH2 b Eb IH) as (k & Hk & He).
      exists (S k). split; [lia|by constructor].
Qed.

Lemma lev_sym s d : LevenshteinLineDistance s d = LevenshteinLineDistance d s.
Proof.
  apply Nat.le_antisymm; apply edits_lev_le, edits_sym, lev_edits.
Qed.

Lemma edits_length_diff s d k :
  edits s d k -> (length s <= length d + k)%nat /\ (length d <= length s + k)%nat.
Proof. induction 1; simpl; lia. Qed.

(** The length of the patch, for use without the patch. *)
Lemma edit_distance_length (S D : list string) :
  exists patch,
    edit_distance S D = Ok patch /\ length patch = LevenshteinLineDistance S D.
Proof.
  destruct (edit_distance_patch S D) as (patch & Hp & Hlen & _). by exists patch.
Qed.

(** ** What the patch of [edit_distance] says about the two sequences *)

Section Kept.

Variables src dst : list string.

Lemma keep_from_app ks l1 : forall i l2,
  keep_from ks i (l1 ++ l2) =
    keep_from ks i l1 ++ keep_from ks (i + Z.of_nat (length l1)) l2.
Proof.
  induction l1 as [|x l1 IH]; intros i l2; simpl.
  - by rewrite Z.add_0_r.
  - rewrite IH. replace (i + 1 + Z.of_nat (length l1))
      with (i + Z.pos (Pos.of_succ_nat (length l1))) by lia.
    by destruct (bool_decide (i ∈ ks)).
Qed.

Lemma keep_from_ext ks ks' l : forall i,
  (forall k, i <= k < i + Z.of_nat (length l) -> k ∈ ks <-> k ∈ ks') ->
  keep_from ks i l = keep_from ks' i l.
Proof.
  induction l as [|x l IH]; intros i Hext; simpl; [done|].
  rewrite (IH (i + 1)) by (intros k Hk; apply Hext; simpl; lia).
  rewrite (bool_decide_ext (i ∈ ks) (i ∈ ks')); [done|].
  apply Hext. simpl. lia.
Qed.

Lemma remove_at_take_S ks (l : list string) k :
  (k < length l)%nat ->
  remove_at ks (take (S k) l) =
    remove_at ks (take k l) ++
      (if bool_decide (Z.of_nat k ∈ ks) then [] else [l !!! k]).
Proof.
  intros Hk. unfold remove_at.
  rewrite (take_S_r l k (l !!! k)) by (by apply list_lookup_lookup_total_lt).
  rewrite keep_from_app, length_take. simpl.
  by replace (Z.of_nat (k `min` length l)) with (Z.of_nat k) by lia.
Qed.

(** A position at or beyond the end of the list removes nothing. *)
Lemma remove_at_cons_ge ks (l : list string) k :
  Z.of_nat (length l) <= k -> remove_at (k :: ks) l = remove_at ks l.
Proof.
  intros Hk. apply keep_from_ext. intros k' Hk'.
  rewrite elem_of_cons. split; [intros [->|?]; [lia|done]|by right].
Qed.

Lemma remove_at_snoc_removed ks (l : list string) k :
  (k < length l)%nat ->
  remove_at (Z.of_nat k :: ks) (take (S k) l) = remove_at ks (take k l).
Proof.
  intros Hk. rewrite remove_at_take_S by done.
  rewrite bool_decide_true by (by left). rewrite app_nil_r.
  apply remove_at_cons_ge. rewrite length_take. lia.
Qed.

Lemma remove_at_snoc_kept ks (l : list string) k :
  (k < length l)%nat -> descending_below (Z.of_nat k) ks ->
  remove_at ks (take (S k) l) = remove_at ks (take k l) ++ [l !!! k].
Proof.
  intros Hk Hks. rewrite remove_at_take_S by done.
  rewrite bool_decide_false; [done|].
  intros Hin. apply descending_below_Forall in Hks.
  rewrite Forall_forall in Hks. specialize (Hks _ Hin). lia.
Qed.

(** The lines that the pushed moves leave in the two prefixes coincide. *)
Lemma trace_kept fuel :
  forall i j,
    (i <= length src)%nat -> (j <= length dst)%nat -> (i + j <= fuel)%nat ->
    remove_at (positions REMOVE (trace src dst fuel i j)) (take i src) =
    remove_at (positions ADD (trace src dst fuel i j)) (take j dst).
Proof.
  induction fuel as [|fuel IH]; intros i j Hi Hj Hf.
  - assert (i = O) as -> by lia. assert (j = O) as -> by lia. done.
  - destruct i as [|i], j as [|j]; cbn [trace]; [done|..].
    + rewrite !positions_cons. simpl.
      rewrite remove_at_snoc_removed by lia. apply (IH O j); lia.
    + rewrite !positions_cons. simpl.
      rewrite remove_at_snoc_removed by lia. apply (IH i O); lia.
    + destruct (String.eqb_spec (src !!! i) (dst !!! j)) as [Heq|_].
      * rewrite !remove_at_snoc_kept
          by (lia || apply trace_positions_add || apply trace_positions_remove).
        rewrite (IH i j), Heq by lia. done.
      * destruct (prefix_distance src dst (S i) j <? prefix_distance src dst i (S j));
          rewrite !positions_cons; simpl.
        -- rewrite remove_at_snoc_removed by lia. apply (IH (S i) j); lia.
        -- rewrite remove_at_snoc_removed by lia. apply (IH i (S j)); lia.
Qed.

Lemma trace_counts fuel :
  forall i j,
    (i + j <= fuel)%nat ->
    Z.of_nat (length (positions ADD (trace src dst fuel i j))) -
    Z.of_nat (length (positions REMOVE (trace src dst fuel i j))) =
      Z.of_nat j - Z.of_nat i.
Proof.
  induction fuel as [|fuel IH]; intros i j Hf.
  - assert (i = O) as -> by lia. assert (j = O) as -> by lia. done.
  - destruct i as [|i], j as [|j]; cbn [trace]; [done|..].
    + rewrite !positions_cons. simpl. specialize (IH O j). lia.
    + rewrite !positions_cons. simpl. specialize (IH i O). lia.
    + destruct (String.eqb (src !!! i) (dst !!! j)).
      * specialize (IH i j). lia.
      * destruct (prefix_distance src dst (S i) j <? prefix_distance src dst i (S j));
          rewrite !positions_cons; simpl.
        -- specialize (IH (S i) j). lia.
        -- specialize (IH i (S j)). lia.
Qed.

End Kept.

Lemma remove_at_perm ks ks' (l : list string) :
  ks ≡ₚ ks' -> remove_at ks l = remove_at ks' l.
Proof.
  intros Hp. apply keep_from_ext. intros k _. by rewrite Hp.
Qed.

Lemma remove_at_nil (l : list string) : remove_at [] l = l.
Proof.
  unfold remove_at. generalize 0. induction l as [|x l IH]; intros i; simpl; [done|].
  by rewrite IH.
Qed.

Lemma positions_split patch :
  Forall (fun mv => action mv = ADD \/ action mv = REMOVE) patch ->
  length patch =
    (length (positions ADD patch) + length (positions REMOVE patch))%nat.
Proof.
  induction 1 as [|mv patch Hmv _ IH]; [done|].
  rewrite !positions_cons. simpl length. rewrite IH.
  destruct Hmv as [-> | ->]; simpl; lia.
Qed.

(** All that the later theorems need to know about a patch of
    [edit_distance]. *)
Lemma edit_distance_facts (S D : list string) :
  exists patch,
    edit_distance S D = Ok patch /\
    length patch = LevenshteinLineDistance S D /\
    Forall (move_of S D (length S) (length D)) patch /\
    StronglySorted Z.lt (positions ADD patch) /\
    StronglySorted Z.lt (positions REMOVE patch) /\
    remove_at (positions REMOVE patch) S = remove_at (positions ADD patch) D /\
    Z.of_nat (length (positions ADD patch)) -
      Z.of_nat (length (positions REMOVE patch)) =
      Z.of_nat (length D) - Z.of_nat (length S).
Proof.
  destruct (edit_distance_patch S D) as (patch & Hp & Hlen & Hall & Hadd & Hdel).
  exists patch. split_and!; try done.
  - rewrite edit_distance_trace in Hp. injection Hp as <-.
    rewrite !positions_rev.
    rewrite (remove_at_perm (rev _) _ S), (remove_at_perm (rev _) _ D)
      by (rewrite rev_alt; apply reverse_Permutation).
    pose proof (trace_kept S D (length S + length D) (length S) (length D)
                  (Nat.le_refl _) (Nat.le_refl _) (Nat.le_refl _)) as Hk.
    by rewrite !take_ge in Hk by lia.
  - rewrite edit_distance_trace in Hp. injection Hp as <-.
    rewrite !positions_rev, !length_rev.
    by apply trace_counts.
Qed.

(** X1. The patch of [edit_distance] describes a common subsequence: the
    source without the lines at the Delete positions is the destination
    without the lines at the Insert positions. *)
Theorem kept_lines_coincide (S D : list string) :
  exists patch,
    edit_distance S D = Ok patch /\
    remove_at (positions REMOVE patch) S = remove_at (positions ADD patch) D.
Proof.
  destruct (edit_distance_facts S D) as (patch & Hp & _ & _ & _ & _ & Hk & _).
  by exists patch.
Qed.

(** X2. In the patch of [edit_distance] the Inserts outnumber the Deletes
    by exactly [|D| - |S|]; so the patch has at least as many operations as
    the lengths differ, and at most [|S| + |D|]. *)
Theorem patch_counts (S D : list string) :
  exists patch,
    edit_distance S D = Ok patch /\
    Z.of_nat (length (positions ADD patch)) -
      Z.of_nat (length (positions REMOVE patch)) =
      Z.of_nat (length D) - Z.of_nat (length S) /\
    length patch =
      (length (positions ADD patch) + length (positions REMOVE patch))%nat /\
    Z.abs (Z.of_nat (length D) - Z.of_nat (length S)) <= Z.of_nat (length patch) /\
    (length patch <= length S + length D)%nat.
Proof.
  destruct (edit_distance_facts S D)
    as (patch & Hp & Hlen & Hall & _ & _ & _ & Hc).
  assert (Hsplit : length patch =
    (length (positions ADD patch) + length (positions REMOVE patch))%nat).
  { apply positions_split. eapply Forall_impl; [exact Hall|].
    intros mv. apply move_of_action. }
  exists patch. split_and!; [done..|lia|].
  rewrite Hlen. apply edits_lev_le.
  pose proof (edits_app _ _ _ _ _ _ (edits_all_del S) (edits_all_ins D)) as He.
  by rewrite app_nil_r in He.
Qed.

(** X3. [edit_distance] returns the empty patch exactly when the two
    sequences are equal. *)
Theorem patch_empty_iff_equal (S D : list string) :
  edit_distance S D = Ok [] <-> S = D.
Proof.
  split.
  - intros Hp. destruct (edit_distance_length S D) as (patch & Hp' & Hlen).
    rewrite Hp in Hp'. injection Hp' as <-.
    apply edits_zero. simpl in Hlen. rewrite Hlen. apply lev_edits.
  - intros ->. by rewrite edit_distance_trace, trace_same.
Qed.

(** X4. The patch from [S] to [D] and the patch from [D] to [S] have the
    same number of operations. *)
Theorem patch_length_symmetric (S D : list string) :
  exists p q,
    edit_distance S D = Ok p /\ edit_distance D S = Ok q /\
    length p = length q.
Proof.
  destruct (edit_distance_length S D) as (p & Hp & Hlp).
  destruct (edit_distance_length D S) as (q & Hq & Hlq).
  exists p, q. split_and!; [done..|]. by rewrite Hlp, Hlq, lev_sym.
Qed.

(** X5. Going through an intermediate sequence never saves operations: the
    patch from [A] to [C] is no longer than the patches from [A] to [B] and
    from [B] to [C] together. *)
Theorem patch_length_triangle (A B C : list string) :
  exists p q r,
    edit_distance A B = Ok p /\ edit_distance B C = Ok q /\
    edit_distance A C = Ok r /\
    (length r <= length p + length q)%nat.
Proof.
  destruct (edit_distance_length A B) as (p & Hp & Hlp).
  destruct (edit_distance_length B C) as (q & Hq & Hlq).
  destruct (edit_distance_length A C) as (r & Hr & Hlr).
  exists p, q, r. split_and!; [done..|]. rewrite Hlp, Hlq, Hlr.
  destruct (edits_trans _ _ _ (lev_edits A B) _ _ (lev_edits B C)) as (k & Hk & He).
  apply edits_lev_le in He. lia.
Qed.

(** ** The patch applier *)

(** The sort key of a move. *)
Definition key (mv : Move) : Z * ascii := (n mv, action mv).

Lemma code_inj c1 c2 : code c1 = code c2 -> c1 = c2.
Proof.
  unfold code. intros H%(inj Z.of_N).
  by rewrite <- (ascii_N_embedding c1), <- (ascii_N_embedding c2), H.
Qed.

Lemma move_le_antisym p1 p2 : move_le p1 p2 -> move_le p2 p1 -> key p1 = key p2.
Proof.
  rewrite !move_le_cases. intros H1 H2. unfold key.
  assert (n p1 = n p2) as -> by lia. f_equal. apply code_inj. lia.
Qed.

Lemma NoDup_fmap_elem_inj {A B} (f : A -> B) (l : list A) x y :
  NoDup (f <$> l) -> x ∈ l -> y ∈ l -> f x = f y -> x = y.
Proof.
  induction l as [|z l IH]; simpl; [by intros _ ?%elem_of_nil|].
  intros [Hz Hl]%NoDup_cons [->|Hx]%elem_of_cons [->|Hy]%elem_of_cons Hf;
    [done| | |by apply IH].
  - destruct Hz. rewrite Hf. by apply list_elem_of_fmap_2.
  - destruct Hz. rewrite <- Hf. by apply list_elem_of_fmap_2.
Qed.

(** When no two moves share position and action, the sorted patch does not
    depend on the order of the patch. *)
Lemma sort_moves_unique p1 p2 :
  p1 ≡ₚ p2 -> NoDup (key <$> p1) -> sort_moves p1 = sort_moves p2.
Proof.
  intros Hp Hnd.
  apply (StronglySorted_unique_strong move_le).
  - intros x1 x2 H1 H2 H12 H21.
    rewrite sort_moves_perm in H1, H2. rewrite <- Hp in H2.
    eapply (NoDup_fmap_elem_inj key); [exact Hnd|done..|].
    by apply move_le_antisym.
  - apply sort_moves_sorted.
  - apply sort_moves_sorted.
  - by rewrite !sort_moves_perm.
Qed.

Lemma positions_perm a p1 p2 : p1 ≡ₚ p2 -> positions a p1 ≡ₚ positions a p2.
Proof. intros Hp. unfold positions. by rewrite Hp. Qed.

Lemma apply_moves_length patch : forall lines1 out,
  apply_moves patch lines1 = Ok out ->
  Z.of_nat (length out) =
    Z.of_nat (length lines1) + Z.of_nat (length (positions ADD patch))
      - Z.of_nat (length (positions REMOVE patch)).
Proof.
  induction patch as [|mv patch IH]; intros lines1 out; simpl.
  - intros [= <-]. simpl. lia.
  - rewrite !positions_cons.
    destruct (Ascii.eqb_spec (action mv) REMOVE) as [Hr|Hr].
    + rewrite Hr. simpl. unfold erase.
      destruct ((0 <=? n mv) && (n mv <? Z.of_nat (length lines1))) eqn:Hb;
        [|done]. simpl. intros Hout%IH.
      rewrite length_delete in Hout; [lia|].
      apply lookup_lt_is_Some. lia.
    + destruct (Ascii.eqb_spec (action mv) ADD) as [Ha|Ha]; [|done].
      rewrite Ha. simpl. unfold insert_at.
      destruct ((0 <=? n mv) && (n mv <=? Z.of_nat (length lines1))) eqn:Hb;
        [|done]. simpl. intros Hout%IH.
      rewrite length_app, length_cons, length_take, length_drop in Hout. lia.
Qed.

(** X6. The result of applying a patch does not depend on the order of its
    records, as long as no two of them share both position and action. *)
Theorem apply_patch_order_independent (lines1 : list string) (p1 p2 : list Move) :
  p1 ≡ₚ p2 -> NoDup (key <$> p1) ->
  apply_patch lines1 p1 = apply_patch lines1 p2.
Proof.
  intros Hp Hnd. unfold apply_patch. by rewrite (sort_moves_unique p1 p2).
Qed.

(** Two records in both orders, on a three-line file. *)
Lemma apply_patch_order_independent_witness :
  apply_patch ["a"; "b"; "c"] [mkMove REMOVE 2 "c"; mkMove ADD 0 "x"] =
  apply_patch ["a"; "b"; "c"] [mkMove ADD 0 "x"; mkMove REMOVE 2 "c"].
Proof.
  apply apply_patch_order_independent.
  - apply Permutation_swap.
  - apply NoDup_cons. split; [|apply NoDup_singleton].
    intros [=]%list_elem_of_singleton.
Defined.

(** X7. When a patch applies, the result has one line more per Insert and
    one line less per Delete than the file it was applied to. *)
Theorem apply_patch_length (lines1 out : list string) (patch : list Move) :
  apply_patch lines1 patch = Ok out ->
  Z.of_nat (length out) =
    Z.of_nat (length lines1) + Z.of_nat (length (positions ADD patch))
      - Z.of_nat (length (positions REMOVE patch)).
Proof.
  intros H%apply_moves_length.
  assert (Hperm : rev (sort_moves patch) ≡ₚ patch).
  { etrans; [symmetry; apply Permutation_rev|apply sort_moves_perm]. }
  by rewrite !(positions_perm _ _ _ Hperm) in H.
Qed.

Lemma apply_patch_length_witness :
  Z.of_nat (length ["a"; "x"; "c"]) =
    Z.of_nat (length ["a"; "b"; "c"])
      + Z.of_nat (length (positions ADD [mkMove ADD 1 "x"; mkMove REMOVE 1 "b"]))
      - Z.of_nat (length (positions REMOVE [mkMove ADD 1 "x"; mkMove REMOVE 1 "b"])).
Proof.
  apply (apply_patch_length ["a"; "b"; "c"] ["a"; "x"; "c"]
           [mkMove ADD 1 "x"; mkMove REMOVE 1 "b"]).
  reflexivity.
Defined.

(** *** Patches that only delete *)

Lemma sublist_edits (S D : list string) :
  D `sublist_of` S -> edits S D (length S - length D).
Proof.
  induction 1 as [|x D S Hs IH|x D S Hs IH]; simpl.
  - constructor.
  - by constructor.
  - pose proof (sublist_length _ _ Hs).
    replace (Datatypes.S (length S) - length D)%nat
      with (Datatypes.S (length S - length D)) by lia.
    by constructor.
Qed.

Lemma keep_from_none ks (l : list string) : forall i,
  (forall k, i <= k -> k ∉ ks) -> keep_from ks i l = l.
Proof.
  induction l as [|x l IH]; intros i Hks; simpl; [done|].
  rewrite bool_decide_false by (apply Hks; lia).
  rewrite IH; [done|]. intros k Hk. apply Hks. lia.
Qed.

Lemma remove_at_delete ks (l : list string) (k : nat) :
  Forall (fun x => x < Z.of_nat k) ks -> (k < length l)%nat ->
  remove_at ks (delete k l) = remove_at (Z.of_nat k :: ks) l.
Proof.
  intros Hks Hk. rewrite Forall_forall in Hks.
  destruct (lookup_lt_is_Some_2 l k Hk) as [x Hx].
  rewrite delete_take_drop. rewrite <- (take_drop_middle l k x Hx) at 3.
  unfold remove_at. rewrite !keep_from_app, length_take.
  replace (0 + Z.of_nat (k `min` length l)) with (Z.of_nat k) by lia.
  cbn [keep_from]. rewrite bool_decide_true by (by left).
  rewrite !(keep_from_none _ (drop (S k) l));
    [|intros k' Hk' [->|Hin%Hks]%elem_of_cons; lia
     |intros k' Hk' Hin%Hks; lia].
  f_equal. apply keep_from_ext. intros k'. rewrite length_take.
  intros Hk'. rewrite elem_of_cons. split; [by right|intros [->|?]; [lia|done]].
Qed.

(** Deletes applied from the highest position down remove exactly the
    lines at their positions. *)
Lemma apply_moves_deletes ms : forall lines1,
  Forall (fun mv => action mv = REMOVE /\ 0 <= n mv) ms ->
  descending_below (Z.of_nat (length lines1)) (n <$> ms) ->
  apply_moves ms lines1 = Ok (remove_at (n <$> ms) lines1).
Proof.
  induction ms as [|mv ms IH]; intros lines1 Hall Hdesc.
  - simpl. by rewrite remove_at_nil.
  - apply Forall_cons in Hall as [[Ha Hn] Hall]. destruct Hdesc as [Hlt Hdesc].
    cbn [apply_moves]. rewrite Ha. simpl. unfold erase.
    replace ((0 <=? n mv) && (n mv <? Z.of_nat (length lines1))) with true
      by (symmetry; apply andb_true_iff; split; [apply Z.leb_le|apply Z.ltb_lt]; lia).
    simpl. rewrite IH; [|done|].
    + f_equal. rewrite remove_at_delete.
      * by rewrite Z2Nat.id by lia.
      * rewrite Z2Nat.id by lia. by apply descending_below_Forall.
      * lia.
    + eapply descending_below_mono; [|exact Hdesc].
      rewrite length_delete by (apply lookup_lt_is_Some; lia). lia.
Qed.

Lemma descending_below_snoc b l x :
  descending_below b l -> Forall (fun y => x < y) l -> x < b ->
  descending_below b (l ++ [x]).
Proof.
  revert b. induction l as [|y l IH]; intros b; simpl; [done|].
  intros [Hy Hl] [Hxy Hxl]%Forall_cons Hx. split; [done|]. by apply IH.
Qed.

Lemma sorted_rev_descending b ks :
  StronglySorted Z.lt ks -> Forall (fun x => x < b) ks ->
  descending_below b (rev ks).
Proof.
  induction 1 as [|x ks Hs IH Hx]; intros Hb; simpl; [done|].
  apply Forall_cons in Hb as [Hxb Hb].
  apply descending_below_snoc; [by apply IH| |done].
  apply Forall_forall. intros y Hy. rewrite Forall_forall in Hx. apply Hx.
  apply list_elem_of_In, in_rev. by apply list_elem_of_In.
Qed.

(** A patch with strictly ascending positions is already sorted. *)
Lemma sort_moves_ascending patch :
  StronglySorted Z.lt (n <$> patch) -> sort_moves patch = patch.
Proof.
  induction patch as [|x patch IH]; [done|].
  intros [Hs Hx]%StronglySorted_inv. simpl. rewrite IH by done.
  destruct patch as [|y patch]; [done|]. simpl.
  apply Forall_cons in Hx as [Hxy _].
  unfold move_lt.
  destruct (Z.eqb_spec (n y) (n x)); [lia|].
  destruct (Z.ltb_spec (n y) (n x)); [lia|done].
Qed.

Lemma positions_all a patch :
  Forall (fun mv => action mv = a) patch -> positions a patch = n <$> patch.
Proof.
  induction 1 as [|mv patch Hmv _ IH]; [done|].
  rewrite positions_cons, decide_True by done. simpl. by rewrite IH.
Qed.

Lemma no_inserts_all_deletes patch :
  Forall (fun mv => action mv = ADD \/ action mv = REMOVE) patch ->
  positions ADD patch = [] ->
  Forall (fun mv => action mv = REMOVE) patch.
Proof.
  induction 1 as [|mv patch Hmv _ IH]; [constructor|].
  rewrite positions_cons. destruct Hmv as [Ha|Hr].
  - by rewrite decide_True.
  - rewrite decide_False by (rewrite Hr; discriminate). auto.
Qed.

(** The patch towards a subsequence only deletes, and it applies. *)
Lemma sublist_patch_applies (S D : list string) :
  D `sublist_of` S ->
  exists patch,
    edit_distance S D = Ok patch /\
    Forall (move_of S D (length S) (length D)) patch /\
    Forall (fun mv => action mv = REMOVE) patch /\
    apply_patch S patch = Ok D.
Proof.
  intros Hsub.
  destruct (edit_distance_facts S D)
    as (patch & Hp & Hlen & Hall & _ & Hdel & Hk & Hc).
  assert (Hact : Forall (fun mv => action mv = ADD \/ action mv = REMOVE) patch).
  { eapply Forall_impl; [exact Hall|]. intros mv. apply move_of_action. }
  pose proof (positions_split patch Hact) as Hsplit.
  pose proof (edits_lev_le _ _ _ (sublist_edits S D Hsub)) as Hle.
  pose proof (sublist_length _ _ Hsub) as HDS.
  assert (Hnoadd : positions ADD patch = []).
  { apply length_zero_iff_nil. lia. }
  pose proof (no_inserts_all_deletes patch Hact Hnoadd) as Hrem.
  rewrite (positions_all REMOVE patch Hrem) in Hdel, Hk.
  exists patch. split_and!; [done..|].
  unfold apply_patch. rewrite sort_moves_ascending by done.
  rewrite apply_moves_deletes.
  - rewrite (remove_at_perm _ (n <$> patch)), Hk, Hnoadd, remove_at_nil; [done|].
    apply fmap_Permutation. symmetry. apply Permutation_rev.
  - apply Forall_forall. intros mv Hin%list_elem_of_In%in_rev%list_elem_of_In.
    rewrite Forall_forall in Hrem, Hall.
    split; [by apply Hrem|]. destruct (Hall mv Hin) as (k & -> & _). lia.
  - change (n <$> rev patch) with (map n (rev patch)). rewrite map_rev.
    apply sorted_rev_descending; [done|].
    apply Forall_fmap, Forall_forall. intros mv Hin.
    rewrite Forall_forall in Hrem, Hall.
    destruct (Hall mv Hin) as (k & Hn & [(Ha & _)|(_ & Hk' & _)]).
    + rewrite (Hrem mv Hin) in Ha. discriminate.
    + simpl. lia.
Qed.

(** X8. When the destination is the source with some lines left out, the
    patch of [edit_distance] consists of Deletes only, and applying it to
    the source gives the destination. *)
Theorem delete_only_round_trip (S D : list string) :
  D `sublist_of` S ->
  exists patch,
    edit_distance S D = Ok patch /\
    Forall (fun mv => action mv = REMOVE) patch /\
    apply_patch S patch = Ok D.
Proof.
  intros Hsub.
  destruct (sublist_patch_applies S D Hsub) as (patch & Hp & _ & Hrem & Happ).
  by exists patch.
Qed.

(** Dropping the middle line of a three-line file. *)
Lemma delete_only_round_trip_witness :
  exists patch,
    edit_distance ["a"; "b"; "c"] ["a"; "c"] = Ok patch /\
    Forall (fun mv => action mv = REMOVE) patch /\
    apply_patch ["a"; "b"; "c"] patch = Ok ["a"; "c"].
Proof.
  apply delete_only_round_trip.
  apply sublist_skip, sublist_cons, sublist_skip, sublist_nil.
Defined.

(** *** The validation loop *)

(** The records that the validation flags: the non-empty lines that
    [parse_record] finds malformed. *)
Definition flagged (l : string) : bool :=
  negb (String.eqb l "") &&
  match parse_record l with Ok Malformed => true | _ => false end.

Lemma parse_rows_blank patch_path lines2 : forall row st,
  Forall (fun l => l = "") lines2 ->
  parse_rows patch_path row lines2 st = Ok st.
Proof.
  induction lines2 as [|l lines2 IH]; intros row st Hall; [done|].
  apply Forall_cons in Hall as [-> Hall]. simpl. by apply IH.
Qed.

Lemma parse_rows_errors patch_path lines2 : forall row st st',
  parse_rows patch_path row lines2 st = Ok st' ->
  errors st' =
    errors st ++
    mjoin (imap (fun k l => if flagged l
                            then [error_message patch_path (row + k) l]
                            else []) lines2) /\
  ok st' = ok st && forallb (fun l => negb (flagged l)) lines2.
Proof.
  induction lines2 as [|l lines2 IH]; intros row st st' Hrun.
  - injection Hrun as <-. simpl. by rewrite app_nil_r, andb_true_r.
  - cbn [parse_rows] in Hrun. rewrite imap_cons. cbn [mjoin list_join forallb].
    unfold flagged at 1 3. rewrite Nat.add_0_r.
    assert (Hshift : forall st0,
      parse_rows patch_path (S row) lines2 st0 = Ok st' ->
      errors st' =
        errors st0 ++
        mjoin (imap ((fun k l => if flagged l
                                 then [error_message patch_path (row + k) l]
                                 else []) ∘ S) lines2) /\
      ok st' = ok st0 && forallb (fun l => negb (flagged l)) lines2).
    { intros st0 H0. destruct (IH _ _ _ H0) as [He Ho]. split; [|done].
      rewrite He. do 2 f_equal. apply imap_ext. intros k x _. simpl.
      by replace (row + S k)%nat with (S (row + k)) by lia. }
    destruct (String.eqb l "") eqn:Hl; simpl.
    { by apply Hshift. }
    destruct (parse_record l) as [[record|]| | |] eqn:Hp; simpl in Hrun; try done.
    + by destruct (Hshift _ Hrun) as [He Ho].
    + destruct (Hshift _ Hrun) as [He Ho]. simpl in *.
      rewrite He, Ho, <- app_assoc. split; [done|].
      by rewrite andb_false_r.
Qed.

(** X9. A patch file without records (no line, or empty lines only) leaves
    the file as it is: the patch subcommand returns 0 and prints and writes
    the lines it read. *)
Theorem blank_patch_is_identity (patch_path : string) (lines1 lines2 : list string) :
  Forall (fun l => l = "") lines2 ->
  patch_run patch_path lines1 lines2 = Ok (mkOutput lines1 0 (Some lines1)).
Proof.
  intros Hall. unfold patch_run, deserialize.
  by rewrite parse_rows_blank.
Qed.

Lemma blank_patch_is_identity_witness :
  patch_run "f.patch" ["a"; "b"] [""; ""] =
    Ok (mkOutput ["a"; "b"] 0 (Some ["a"; "b"])).
Proof.
  apply blank_patch_is_identity. by repeat constructor.
Defined.

(** X10. When the validation loop completes, it has printed exactly one
    message per flagged record, in file order, each with the record's
    1-based line number and text; and if any record was flagged the patch
    subcommand returns -1 with these messages as its only output and
    writes no file, whatever the other records and the source hold. *)
Theorem validation_is_fail_closed
    (patch_path : string) (lines1 lines2 : list string) (st : parse_state) :
  deserialize patch_path lines2 = Ok st ->
  errors st =
    mjoin (imap (fun k l => if flagged l
                            then [error_message patch_path k l]
                            else []) lines2) /\
  (ok st = false <-> exists l, l ∈ lines2 /\ flagged l = true) /\
  (ok st = false ->
   patch_run patch_path lines1 lines2 = Ok (mkOutput (errors st) (-1) None)).
Proof.
  intros Hde. destruct (parse_rows_errors _ _ _ _ _ Hde) as [He Ho].
  simpl in He, Ho. split_and!; [done| |].
  - rewrite Ho. split.
    + intros Hf. apply not_true_iff_false in Hf. rewrite forallb_forall in Hf.
      destruct (decide (Exists (fun l => flagged l = true) lines2)) as [Hex|Hnex].
      * apply Exists_exists in Hex. done.
      * destruct Hf. intros l Hin%list_elem_of_In.
        apply negb_true_iff, not_true_iff_false. intros Hfl.
        apply Hnex, Exists_exists. by exists l.
    + intros (l & Hin & Hfl). apply not_true_iff_false. rewrite forallb_forall.
      intros Hall. specialize (Hall l (proj1 (list_elem_of_In _ _) Hin)).
      by rewrite Hfl in Hall.
  - intros Hf. unfold patch_run. rewrite Hde. simpl. by rewrite Hf.
Qed.

(** A flagged record on line 2 of a three-line patch file. *)
Lemma validation_is_fail_closed_witness :
  errors (mkParse false ["f.patch:2: Invalid patch action: x 1 text"]
            [mkMove ADD 0 "x"; mkMove REMOVE 0 "a"]) =
    mjoin (imap (fun k l => if flagged l
                            then [error_message "f.patch" k l]
                            else []) ["+ 0 x"; "x 1 text"; "- 0 a"]).
Proof.
  refine (proj1 (validation_is_fail_closed "f.patch" ["a"]
                   ["+ 0 x"; "x 1 text"; "- 0 a"] _ _)).
  reflexivity.
Defined.

(** ** Files: [write_to_file] (lines 24-37) against [read_entire_file] *)

(** The text that [write_to_file] leaves in the file: the loop
    [for (auto line : lines) outputFile << line << '\n']. *)
Definition write_to_file (lines : list string) : string :=
  foldl (fun text l => text +:+ l +:+ String newline "") "" lines.

(** The text with a newline after its last line, if it lacks one;
    [pending] tells whether the characters seen so far end an unfinished
    line. *)
Fixpoint terminate_from (content : string) (pending : bool) : string :=
  match content with
  | String c rest => String c (terminate_from rest (negb (Ascii.eqb c newline)))
  | EmptyString => if pending then String newline "" else ""
  end.

Definition terminate (content : string) : string := terminate_from content false.

Lemma append_assoc (a b c : string) : (a +:+ b) +:+ c = a +:+ (b +:+ c).
Proof. induction a as [|x a IH]; [done|]. by rewrite !append_cons, IH. Qed.

Lemma write_to_file_print ls : write_to_file ls = print_lines ls.
Proof.
  unfold write_to_file.
  assert (Hgen : forall text,
    foldl (fun text l => text +:+ l +:+ String newline "") text ls =
      text +:+ print_lines ls).
  { induction ls as [|l ls IH]; intros text; simpl.
    - by rewrite append_nil_r.
    - rewrite IH, !append_assoc. do 2 f_equal. }
  by rewrite Hgen.
Qed.

Lemma print_read_lines content : forall l extracted,
  (extracted = false -> l = "") ->
  print_lines (read_lines content l extracted) =
    l +:+ terminate_from content extracted.
Proof.
  induction content as [|c rest IH]; intros l extracted Hl; cbn [read_lines].
  - destruct extracted; simpl; [done|]. by rewrite Hl.
  - cbn [terminate_from]. destruct (Ascii.eqb_spec c newline) as [->|Hc].
    + simpl. by rewrite IH.
    + rewrite IH by done. simpl. by rewrite append_snoc.
Qed.

Lemma terminate_from_cases content : forall pending,
  terminate_from content pending = content \/
  terminate_from content pending = content +:+ String newline "".
Proof.
  induction content as [|c rest IH]; intros pending; simpl.
  - destruct pending; auto.
  - rewrite append_cons.
    destruct (IH (negb (Ascii.eqb c newline))) as [-> | ->]; auto.
Qed.

(** X11. Lines without newline characters that [write_to_file] writes are
    the lines that [read_entire_file] reads back. *)
Theorem write_then_read (lines : list string) :
  Forall (fun l => newline_free l = true) lines ->
  read_entire_file (write_to_file lines) = lines.
Proof. intros Hl. rewrite write_to_file_print. by apply read_print_lines. Qed.

Lemma write_then_read_witness :
  read_entire_file (write_to_file ["a"; ""; "  b"]) = ["a"; ""; "  b"].
Proof. apply write_then_read. by repeat constructor. Defined.

(** X12. [read_entire_file] splits any text into lines without newline
    characters, and writing these lines back with [write_to_file] gives the
    text again, with a newline added at its end only when the text is not
    empty and lacks one. *)
Theorem read_then_write (content : string) :
  Forall (fun l => newline_free l = true) (read_entire_file content) /\
  write_to_file (read_entire_file content) = terminate content /\
  (terminate content = content \/
   terminate content = content +:+ String newline "").
Proof.
  split_and!.
  - by apply read_lines_newline_free.
  - rewrite write_to_file_print. unfold read_entire_file.
    by rewrite print_read_lines.
  - apply terminate_from_cases.
Qed.

(** *** The lines that the patch subcommand writes *)

Lemma until_newline_newline_free s :
  newline_free (until_newline s).1.1 = true.
Proof.
  induction s as [|c s IH]; simpl; [done|].
  destruct (Ascii.eqb c newline) eqn:Hc; [done|].
  destruct (until_newline s) as [[l r] found]. simpl in *. by rewrite Hc, IH.
Qed.

Lemma strip_space_newline_free l :
  newline_free l = true -> newline_free (strip_space l) = true.
Proof.
  destruct l as [|c l]; simpl; [done|].
  intros [Hc Hl]%andb_true_iff. destruct (Ascii.eqb c " "); [done|].
  simpl. by rewrite Hc, Hl.
Qed.

Lemma parse_record_newline_free l mv :
  parse_record l = Ok (Accepted mv) -> newline_free (line mv) = true.
Proof.
  unfold parse_record.
  destruct (get_char _) as [iss [a|]]; destruct (get_int _ _) as [iss' rn];
    [|done].
  destruct (_ && _); [done|].
  unfold getline. destruct (good iss').
  - pose proof (until_newline_newline_free (buf iss')) as Hfree.
    destruct (until_newline (buf iss')) as [[rl rest] found].
    intros [= <-]. simpl. by apply strip_space_newline_free.
  - by intros [= <-].
Qed.

Lemma parse_rows_newline_free patch_path lines2 : forall row st st',
  parse_rows patch_path row lines2 st = Ok st' ->
  Forall (fun mv => newline_free (line mv) = true) (patch_of st) ->
  Forall (fun mv => newline_free (line mv) = true) (patch_of st').
Proof.
  induction lines2 as [|l lines2 IH]; intros row st st' Hrun Hst.
  - by injection Hrun as <-.
  - cbn [parse_rows] in Hrun. destruct (String.eqb l ""); [by eapply IH|].
    destruct (parse_record l) as [[record|]| | |] eqn:Hp; simpl in Hrun; try done.
    + eapply IH; [exact Hrun|]. simpl. apply Forall_app. split; [done|].
      constructor; [|done]. by eapply parse_record_newline_free.
    + by eapply IH.
Qed.

Lemma apply_moves_newline_free patch : forall lines1 out,
  apply_moves patch lines1 = Ok out ->
  Forall (fun mv => newline_free (line mv) = true) patch ->
  Forall (fun l => newline_free l = true) lines1 ->
  Forall (fun l => newline_free l = true) out.
Proof.
  induction patch as [|mv patch IH]; intros lines1 out; simpl.
  - by intros [= <-].
  - intros Hrun [Hmv Hpatch]%Forall_cons Hlines.
    destruct (Ascii.eqb (action mv) REMOVE).
    + unfold erase in Hrun. destruct (_ && _); [|done]. simpl in Hrun.
      eapply IH; [exact Hrun|done|]. by apply Forall_delete.
    + destruct (Ascii.eqb (action mv) ADD); [|done].
      unfold insert_at in Hrun. destruct (_ && _); [|done]. simpl in Hrun.
      eapply IH; [exact Hrun|done|].
      apply Forall_app. split; [by apply Forall_take|].
      constructor; [done|by apply Forall_drop].
Qed.

(** X13. Whatever the patch file holds, when the patch subcommand writes
    its result for a file read by [read_entire_file], the lines written
    are the lines printed, none of them holds a newline character, and
    reading the written file back gives exactly these lines. *)
Theorem patched_file_reads_back
    (patch_path file : string) (lines2 : list string) (out : run_output) :
  patch_run patch_path (read_entire_file file) lines2 = Ok out ->
  returned out = 0 ->
  written out = Some (printed out) /\
  Forall (fun l => newline_free l = true) (printed out) /\
  read_entire_file (write_to_file (printed out)) = printed out.
Proof.
  unfold patch_run, deserialize. intros Hrun Hret.
  destruct (parse_rows _ _ _ _) as [st| | |] eqn:Hparse; simpl in Hrun; try done.
  destruct (ok st); simpl in Hrun; [|injection Hrun as <-; simpl in Hret; lia].
  destruct (apply_patch _ _) as [ls| | |] eqn:Happly; simpl in Hrun; try done.
  injection Hrun as <-. simpl.
  assert (Hfree : Forall (fun l => newline_free l = true) ls).
  { eapply apply_moves_newline_free; [exact Happly| |].
    - assert (Hperm : rev (sort_moves (patch_of st)) ≡ₚ patch_of st)
        by (etrans; [symmetry; apply Permutation_rev|apply sort_moves_perm]).
      rewrite Hperm. eapply parse_rows_newline_free; [exact Hparse|constructor].
    - apply read_entire_file_newline_free. }
  split_and!; [done..|]. rewrite write_to_file_print. by apply read_print_lines.
Qed.

Lemma patched_file_reads_back_witness :
  read_entire_file (write_to_file ["a"; "x"; "c"]) = ["a"; "x"; "c"].
Proof.
  refine (proj2 (proj2 (patched_file_reads_back "f.patch"
    "a
b
c
" ["+ 1 x"; "- 1 b"] (mkOutput ["a"; "x"; "c"] 0 (Some ["a"; "x"; "c"])) _ _))).
  - reflexivity.
  - reflexivity.
Defined.

(** ** The suggestion helper: namespace [ref] (lines 127-146) *)

Module ref.

(** The global memo table [mp]. *)
Abbreviation memo := (gmap (string * string) Z).

(** [lev] (lines 133-145), with the memo table passed along.  The three
    calls inside [std::min({...})] run from left to right, and the table is
    written after the calls on the right of the assignment. *)
Fixpoint lev_fuel (fuel : nat) (src dst : string) (mp : memo) : result (Z * memo) :=
  match fuel with
  | O => OutOfFuel
  | S fuel =>
    match src, dst with
    | EmptyString, _ => Ok (Z.of_nat (String.length dst), mp)
    | _, EmptyString => Ok (Z.of_nat (String.length src), mp)
    | String a src', String b dst' =>
      match mp !! (src, dst) with
      | Some v => Ok (v, mp)
      | None =>
        if Ascii.eqb a b then
          '(v, mp) ← lev_fuel fuel src' dst' mp;
          Ok (v, <[(src, dst) := v]> mp)
        else
          '(r, mp) ← lev_fuel fuel src' dst mp;
          '(i, mp) ← lev_fuel fuel src dst' mp;
          '(x, mp) ← lev_fuel fuel src' dst' mp;
          let dist := 1 + Z.min r (Z.min i x) in
          Ok (dist, <[(src, dst) := dist]> mp)
      end
    end
  end.

(** Every call shortens one of the strings, so this fuel is enough. *)
Definition lev (src dst : string) (mp : memo) : result (Z * memo) :=
  lev_fuel (String.length src + String.length dst + 1) src dst mp.

(** The Levenshtein distance by its classic recurrence: the minimum over
    deleting, inserting, and keeping or replacing the first character. *)
Fixpoint levenshtein (s d : string) : nat :=
  match s with
  | EmptyString => String.length d
  | String a s' =>
    (fix row (d : string) : nat :=
       match d with
       | EmptyString => String.length s
       | String b d' =>
         Nat.min (levenshtein s' d' + (if Ascii.eqb a b then 0 else 1))
                 (Nat.min (S (levenshtein s' d)) (S (row d')))
       end) d
  end.

(** Edit scripts on strings: [script s d k] when [k] insertions, deletions
    and replacements of one character turn [s] into [d]. *)
Inductive script : string -> string -> nat -> Prop :=
| script_nil : script "" "" 0
| script_keep a s d k : script s d k -> script (String a s) (String a d) k
| script_subst a b s d k : script s d k -> script (String a s) (String b d) (S k)
| script_del a s d k : script s d k -> script (String a s) d (S k)
| script_ins b s d k : script s d k -> script s (String b d) (S k).

(** The entries of the memo table are distances. *)
Definition sound (mp : memo) : Prop :=
  forall s d v, mp !! (s, d) = Some v -> v = Z.of_nat (levenshtein s d).

Lemma levenshtein_nil_r s : levenshtein s "" = String.length s.
Proof. by destruct s. Qed.

Lemma levenshtein_cons a s b d :
  levenshtein (String a s) (String b d) =
    Nat.min (levenshtein s d + (if Ascii.eqb a b then 0 else 1))
            (Nat.min (S (levenshtein s (String b d)))
                     (S (levenshtein (String a s) d))).
Proof. reflexivity. Qed.

Lemma script_all_ins d : script "" d (String.length d).
Proof. induction d; simpl; by constructor. Qed.

Lemma script_all_del s : script s "" (String.length s).
Proof. induction s; simpl; by constructor. Qed.

Lemma levenshtein_script s : forall d, script s d (levenshtein s d).
Proof.
  induction s as [|a s IHs]; intros d; [apply script_all_ins|].
  induction d as [|b d IHd]; [rewrite levenshtein_nil_r; apply script_all_del|].
  rewrite levenshtein_cons.
  assert (Hdiag : script (String a s) (String b d)
                    (levenshtein s d + (if Ascii.eqb a b then 0 else 1))).
  { destruct (Ascii.eqb_spec a b) as [->|_].
    - rewrite Nat.add_0_r. apply script_keep, IHs.
    - rewrite Nat.add_1_r. apply script_subst, IHs. }
  assert (Hdel : script (String a s) (String b d) (S (levenshtein s (String b d))))
    by apply script_del, IHs.
  assert (Hins : script (String a s) (String b d) (S (levenshtein (String a s) d)))
    by apply script_ins, IHd.
  remember (levenshtein s d + (if Ascii.eqb a b then 0 else 1))%nat as x.
  remember (S (levenshtein s (String b d))) as y.
  remember (S (levenshtein (String a s) d)) as z.
  destruct (Nat.min_spec y z) as [[_ ->]|[_ ->]];
    [destruct (Nat.min_spec x y) as [[_ ->]|[_ ->]]
    |destruct (Nat.min_spec x z) as [[_ ->]|[_ ->]]]; assumption.
Qed.

Lemma script_levenshtein_le s d k : script s d k -> (levenshtein s d <= k)%nat.
Proof.
  induction 1 as [|a s d k _ IH|a b s d k _ IH|a s d k _ IH|b s d k _ IH].
  - simpl. lia.
  - rewrite levenshtein_cons, Ascii.eqb_refl. lia.
  - rewrite levenshtein_cons. destruct (Ascii.eqb a b); lia.
  - destruct d as [|b d]; [rewrite levenshtein_nil_r in *; simpl; lia|].
    rewrite levenshtein_cons. lia.
  - destruct s as [|a s]; [simpl in *; lia|].
    rewrite levenshtein_cons. lia.
Qed.

Lemma script_drop_src a s d k :
  script (String a s) d k -> exists k', (k' <= S k)%nat /\ script s d k'.
Proof.
  intros H. remember (String a s) as s0 eqn:Es. revert a s Es.
  induction H as [|a' s' d k H IH|a' b' s' d k H IH|a' s' d k H IH|b s' d k H IH];
    intros a s Es.
  - discriminate.
  - injection Es as -> ->. exists (S k). split; [lia|by constructor].
  - injection Es as -> ->. exists (S k). split; [lia|by constructor].
  - injection Es as -> ->. exists k. split; [lia|done].
  - destruct (IH a s Es) as (k' & Hk & He).
    exists (S k'). split; [lia|by constructor].
Qed.

Lemma script_drop_dst b s d k :
  script s (String b d) k -> exists k', (k' <= S k)%nat /\ script s d k'.
Proof.
  intros H. remember (String b d) as d0 eqn:Ed. revert b d Ed.
  induction H as [|a' s' d' k H IH|a' b' s' d' k H IH|a' s' d' k H IH|b' s' d' k H IH];
    intros b d Ed.
  - discriminate.
  - injection Ed as -> ->. exists (S k). split; [lia|by constructor].
  - injection Ed as -> ->. exists (S k). split; [lia|by constructor].
  - destruct (IH b d Ed) as (k' & Hk & He).
    exists (S k'). split; [lia|by constructor].
  - injection Ed as -> ->. exists k. split; [lia|done].
Qed.

(** The two cases of the code: equal first characters cost nothing, and
    different ones cost one more than the best of the three neighbours. *)
Lemma levenshtein_cons_eq a s d :
  levenshtein (String a s) (String a d) = levenshtein s d.
Proof.
  rewrite levenshtein_cons, Ascii.eqb_refl.
  destruct (script_drop_dst a s d _ (levenshtein_script s (String a d)))
    as (k1 & Hk1 & He1).
  destruct (script_drop_src a s d _ (levenshtein_script (String a s) d))
    as (k2 & Hk2 & He2).
  apply script_levenshtein_le in He1, He2. lia.
Qed.

Lemma levenshtein_cons_ne a s b d :
  Ascii.eqb a b = false ->
  levenshtein (String a s) (String b d) =
    S (Nat.min (levenshtein s (String b d))
               (Nat.min (levenshtein (String a s) d) (levenshtein s d))).
Proof. intros Hne. rewrite levenshtein_cons, Hne. lia. Qed.

Lemma sound_insert mp s d :
  sound mp -> sound (<[(s, d) := Z.of_nat (levenshtein s d)]> mp).
Proof.
  intros Hs s' d' v. rewrite lookup_insert. case_decide as Hk.
  - injection Hk as <- <-. by intros [= <-].
  - apply Hs.
Qed.

Lemma bind_Ok {A B} (a : A) (k : A -> result B) : (Ok a ≫= k) = k a.
Proof. reflexivity. Qed.

Lemma lev_fuel_correct fuel : forall src dst mp,
  sound mp -> (String.length src + String.length dst < fuel)%nat ->
  exists mp',
    lev_fuel fuel src dst mp = Ok (Z.of_nat (levenshtein src dst), mp') /\
    sound mp' /\ mp ⊆ mp'.
Proof.
  induction fuel as [|fuel IH]; intros src dst mp Hs Hf; [lia|].
  destruct src as [|a src'], dst as [|b dst'].
  - by exists mp.
  - by exists mp.
  - exists mp. by rewrite levenshtein_nil_r.
  - cbn [lev_fuel]. cbn [String.length] in Hf.
    destruct (mp !! (String a src', String b dst')) as [v|] eqn:Hm.
    { exists mp. split_and!; [|done..]. by rewrite (Hs _ _ _ Hm). }
    destruct (Ascii.eqb_spec a b) as [->|Hne].
    + destruct (IH src' dst' mp Hs) as (mp1 & -> & Hs1 & Hsub1); [lia|].
      rewrite bind_Ok. cbv beta iota.
      rewrite <- (levenshtein_cons_eq b src' dst').
      eexists. split_and!; [done|by apply sound_insert|].
      by apply insert_subseteq_r.
    + destruct (IH src' (String b dst') mp Hs) as (mp1 & -> & Hs1 & Hsub1);
        [cbn [String.length]; lia|].
      rewrite bind_Ok. cbv beta iota.
      destruct (IH (String a src') dst' mp1 Hs1) as (mp2 & -> & Hs2 & Hsub2);
        [cbn [String.length]; lia|].
      rewrite bind_Ok. cbv beta iota.
      destruct (IH src' dst' mp2 Hs2) as (mp3 & -> & Hs3 & Hsub3); [lia|].
      rewrite bind_Ok. cbv beta iota zeta.
      replace (1 + Z.of_nat (levenshtein src' (String b dst'))
                 `min` (Z.of_nat (levenshtein (String a src') dst')
                          `min` Z.of_nat (levenshtein src' dst')))
        with (Z.of_nat (levenshtein (String a src') (String b dst'))).
      * eexists. split_and!; [done|by apply sound_insert|].
        apply insert_subseteq_r; [done|]. by do 2 (etrans; [|eassumption]).
      * rewrite levenshtein_cons_ne by (by apply Ascii.eqb_neq). lia.
Qed.

(** X14. Starting from any memo table whose entries are distances, [lev]
    returns the Levenshtein distance of its arguments (the shortest script
    of insertions, deletions and replacements, by the classic recurrence),
    whatever the table already holds; it only adds entries to the table,
    and the entries stay distances. *)
Theorem lev_correct (src dst : string) (mp : memo) :
  sound mp ->
  exists mp',
    lev src dst mp = Ok (Z.of_nat (levenshtein src dst), mp') /\
    sound mp' /\ mp ⊆ mp' /\
    script src dst (levenshtein src dst) /\
    (forall k, script src dst k -> (levenshtein src dst <= k)%nat).
Proof.
  intros Hs. destruct (lev_fuel_correct
    (String.length src + String.length dst + 1) src dst mp Hs) as (mp' & H & ? & ?);
    [lia|].
  exists mp'. split_and!; [done..|apply levenshtein_script|].
  intros k. apply script_levenshtein_le.
Qed.

(** The call on [paths] and [patch] from the empty table. *)
Lemma lev_correct_witness :
  exists mp',
    lev "paths" "patch" ∅ = Ok (Z.of_nat (levenshtein "paths" "patch"), mp') /\
    sound mp' /\ ∅ ⊆ mp' /\
    script "paths" "patch" (levenshtein "paths" "patch") /\
    (forall k, script "paths" "patch" k -> (levenshtein "paths" "patch" <= k)%nat).
Proof.
  apply lev_correct. intros s d v Hl. by rewrite lookup_empty in Hl.
Defined.

End ref.

(** ** The command line: subcommands, [usage], [find_subcommand], [main] *)

Definition nl : string := String newline "".
Definition tab : string := String (ascii_of_N 9) "".

(** The three classes derived from [Subcommand]; the virtual call
    [sub_cmd->run] dispatches on them. *)
Inductive kind : Type := DiffKind | PatchKind | HelpKind.

Record Subcommand : Type :=
  mkSubcommand { name : string; signature : string; description : string;
                 kind_of : kind }.

(** Lines 364-365. *)
Definition SUBCOMMANDS : list Subcommand :=
  [ mkSubcommand "diff" "<file1> <file2>"
      "print the difference between the files to stdout" DiffKind;
    mkSubcommand "patch" "<file> <file.patch>"
      "patch the file with the given patch" PatchKind;
    mkSubcommand "help" "[subcommand]" "print this help message" HelpKind ].

(** [*std::max_element(first, last)]; on an empty range it dereferences
    the end iterator. *)
Definition max_element (l : list Z) : result Z :=
  match l with
  | [] => Undefined
  | x :: rest => Ok (foldl (fun m y => if m <? y then y else m) x rest)
  end.

(** [std::cout << std::setw(width) << s]: padded with spaces on the left. *)
Definition setw (width : Z) (s : string) : string :=
  string_of_list_ascii
    (replicate (Z.to_nat (width - Z.of_nat (String.length s))) " "%char) +:+ s.

(** Lines 164-182: the text that [usage] prints. *)
Definition usage (program : string) : result string :=
  let lengths :=
    map (fun sc => Z.of_nat (String.length (name sc +:+ " " +:+ signature sc)))
        SUBCOMMANDS in
  width ← max_element lengths;
  Ok ("Usage: " +:+ program +:+ " <SUBCOMMAND> [OPTIONS]" +:+ nl +:+
      "Subcommands:" +:+ nl +:+
      foldr (fun sc text =>
               tab +:+ setw width (name sc +:+ " " +:+ signature sc) +:+ tab
                 +:+ description sc +:+ nl +:+ text) "" SUBCOMMANDS).

(** Lines 307-314: the first subcommand with that name, or [nullptr]. *)
Fixpoint find_in (subs : list Subcommand) (sub_cmd_name : string) : option Subcommand :=
  match subs with
  | [] => None
  | sc :: rest =>
    if String.eqb (name sc) sub_cmd_name then Some sc
    else find_in rest sub_cmd_name
  end.

Definition find_subcommand (sub_cmd_name : string) : option Subcommand :=
  find_in SUBCOMMANDS sub_cmd_name.

(** Lines 317-322: the names within distance 3, in the order of
    [SUBCOMMANDS]; the memo table of [ref::lev] is passed along. *)
Fixpoint candidates (subs : list Subcommand) (sub_cmd_name : string)
    (mp : ref.memo) : result (list string * ref.memo) :=
  match subs with
  | [] => Ok ([], mp)
  | sc :: rest =>
    '(d, mp) ← ref.lev sub_cmd_name (name sc) mp;
    '(cs, mp) ← candidates rest sub_cmd_name mp;
    Ok (if d <? 3 then name sc :: cs else cs, mp)
  end.

(** Lines 316-330: the text that [suggest_closet_subcommand_if_exists]
    prints. *)
Definition suggest_closet_subcommand_if_exists (sub_cmd_name : string)
    (mp : ref.memo) : result (string * ref.memo) :=
  '(cs, mp) ← candidates SUBCOMMANDS sub_cmd_name mp;
  Ok (match cs with
      | [] => ""
      | _ => "Maybe you meant:" +:+ nl +:+
             foldr (fun c text => tab +:+ c +:+ nl +:+ text) "" cs
      end, mp).

(** How a run ends: [main] returns a value, or [exit] is called. *)
Inductive ending : Type := Returned (v : Z) | Exited (v : Z).

(** What a run leaves behind: the text on standard output, how it ended,
    and the files. *)
Record outcome : Type :=
  mkOutcome { stdout : string; ending_of : ending; files : gmap string string }.

(** Lines 12 and 28: the message before [exit(1)]. *)
Definition open_error (filename : string) : string :=
  "Error: opening the file " +:+ filename +:+ nl.

(** Lines 192-198 and 234-240. *)
Definition not_enough_files (program : string) (sc : Subcommand) : string :=
  "Usage: " +:+ program +:+ " " +:+ name sc +:+ " " +:+ signature sc +:+ nl +:+
  "ERROR: not enough files were provided to " +:+ name sc +:+ nl.

Section World.

(** Whether a file of that name can be opened for writing. *)
Variable writable : string -> bool.

(** [DiffSubcommand::run] (lines 190-221). *)
Definition DiffSubcommand_run (sc : Subcommand) (program : string)
    (args : list string) (fs : gmap string string) : result outcome :=
  match args with
  | file_path1 :: file_path2 :: _ =>
    match fs !! file_path1 with
    | None => Ok (mkOutcome (open_error file_path1) (Exited 1) fs)
    | Some content1 =>
      match fs !! file_path2 with
      | None => Ok (mkOutcome (open_error file_path2) (Exited 1) fs)
      | Some content2 =>
        out ← diff_output (read_entire_file content1) (read_entire_file content2);
        Ok (mkOutcome (print_lines out) (Returned 0) fs)
      end
    end
  | _ => Ok (mkOutcome (not_enough_files program sc) (Returned (-1)) fs)
  end.

(** [PatchSubcommand::run] (lines 232-304). *)
Definition PatchSubcommand_run (sc : Subcommand) (program : string)
    (args : list string) (fs : gmap string string) : result outcome :=
  match args with
  | file_path :: patch_path :: _ =>
    match fs !! file_path with
    | None => Ok (mkOutcome (open_error file_path) (Exited 1) fs)
    | Some content1 =>
      match fs !! patch_path with
      | None => Ok (mkOutcome (open_error patch_path) (Exited 1) fs)
      | Some content2 =>
        r ← patch_run patch_path (read_entire_file content1)
              (read_entire_file content2);
        match written r with
        | None => Ok (mkOutcome (print_lines (printed r)) (Returned (returned r)) fs)
        | Some lines1 =>
          if writable ("_" +:+ file_path)
          then Ok (mkOutcome (print_lines (printed r)) (Returned (returned r))
                     (<["_" +:+ file_path := write_to_file lines1]> fs))
          else Ok (mkOutcome
                     (print_lines (printed r) +:+ open_error ("_" +:+ file_path))
                     (Exited 1) fs)
        end
      end
    end
  | _ => Ok (mkOutcome (not_enough_files program sc) (Returned (-1)) fs)
  end.

(** [HelpSubcommand::run] (lines 337-358).  When the name is not found,
    [sub_cmd] is null and line 347 dereferences it. *)
Definition HelpSubcommand_run (sc : Subcommand) (program : string)
    (args : list string) (fs : gmap string string) : result outcome :=
  match args with
  | [] => text ← usage program; Ok (mkOutcome text (Returned 0) fs)
  | sub_cmd_name :: _ =>
    match find_subcommand sub_cmd_name with
    | None => Undefined
    | Some _ =>
      text ← usage program;
      '(suggestion, _) ← suggest_closet_subcommand_if_exists sub_cmd_name ∅;
      Ok (mkOutcome
            (text +:+ "ERROR: Unknown subcommand " +:+ sub_cmd_name +:+ nl
               +:+ suggestion)
            (Returned (-1)) fs)
    end
  end.

Definition run (sc : Subcommand) : string -> list string -> gmap string string
                                   -> result outcome :=
  match kind_of sc with
  | DiffKind => DiffSubcommand_run sc
  | PatchKind => PatchSubcommand_run sc
  | HelpKind => HelpSubcommand_run sc
  end.

(** [main] (lines 361-391) on [argv[0]] and the other arguments. *)
Definition main (program : string) (args : list string)
    (fs : gmap string string) : result outcome :=
  match args with
  | [] =>
    text ← usage program;
    Ok (mkOutcome (text +:+ "ERROR: No Subcommand is provided" +:+ nl)
          (Returned 0) fs)
  | sub_cmd_name :: args =>
    match find_subcommand sub_cmd_name with
    | Some sc => run sc program args fs
    | None =>
      text ← usage program;
      '(suggestion, _) ← suggest_closet_subcommand_if_exists sub_cmd_name ∅;
      Ok (mkOutcome
            (text +:+ "ERROR: Unknown subcommand " +:+ sub_cmd_name +:+ nl
               +:+ suggestion)
            (Returned (-1)) fs)
    end
  end.

End World.

(** *** What the command line does *)

Section Cli.

Variable writable : string -> bool.

Lemma find_in_none subs q : q ∉ (name <$> subs) -> find_in subs q = None.
Proof.
  induction subs as [|sc subs IH]; [done|]. simpl.
  intros Hq. apply not_elem_of_cons in Hq as [Hne Hq].
  destruct (String.eqb_spec (name sc) q); [done|]. by apply IH.
Qed.


Lemma usage_total program : exists text, usage program = Ok text.
Proof. by eexists. Qed.

Lemma print_lines_empty ls : print_lines ls = "" <-> ls = [].
Proof.
  split; [|by intros ->]. destruct ls as [|l ls]; [done|]. simpl.
  destruct l; discriminate.
Qed.

(** X15. [help <name>] never describes a subcommand.  For each of the
    three subcommand names it prints the usage, reports the name as an
    unknown subcommand, suggests that very name and returns -1; for any
    other name the lookup gives a null pointer, which is dereferenced. *)
Theorem help_with_a_name (program q : string) (rest : list string)
    (fs : gmap string string) :
  (q ∈ ["diff"; "patch"; "help"] ->
   exists text,
     usage program = Ok text /\
     main writable program ("help" :: q :: rest) fs =
       Ok (mkOutcome
             (text +:+ "ERROR: Unknown subcommand " +:+ q +:+ nl +:+
              "Maybe you meant:" +:+ nl +:+ tab +:+ q +:+ nl)
             (Returned (-1)) fs)) /\
  (q ∉ ["diff"; "patch"; "help"] ->
   main writable program ("help" :: q :: rest) fs = Undefined).
Proof.
  split.
  - intros Hq. eexists. split; [reflexivity|].
    repeat (apply elem_of_cons in Hq as [->|Hq]; [by vm_compute|]).
    by apply elem_of_nil in Hq.
  - intros Hq. unfold main. cbn [find_subcommand find_in SUBCOMMANDS name].
    simpl String.eqb. cbv iota. unfold run. cbn [kind_of].
    unfold HelpSubcommand_run, find_subcommand.
    by rewrite find_in_none.
Qed.



(** X17. [diff <file1> <file2>] on two readable files returns 0, changes
    no file, and prints nothing exactly when the two files hold the same
    lines. *)
Theorem diff_is_silent_on_equal_lines
    (program f1 f2 c1 c2 : string) (rest : list string)
    (fs : gmap string string) :
  fs !! f1 = Some c1 -> fs !! f2 = Some c2 ->
  exists text,
    main writable program ("diff" :: f1 :: f2 :: rest) fs =
      Ok (mkOutcome text (Returned 0) fs) /\
    (text = "" <-> read_entire_file c1 = read_entire_file c2).
Proof.
  intros H1 H2.
  destruct (edit_distance_length (read_entire_file c1) (read_entire_file c2))
    as (patch & Hp & Hlen).
  exists (print_lines (map serialize patch)). split.
  - unfold main. cbn [find_subcommand find_in SUBCOMMANDS name].
    simpl String.eqb. cbv iota. unfold run. cbn [kind_of].
    unfold DiffSubcommand_run, diff_output. by rewrite H1, H2, Hp.
  - rewrite print_lines_empty. split.
    + intros Hnil. apply edits_zero.
      destruct patch; [|done]. simpl in Hlen. rewrite Hlen. apply lev_edits.
    + intros Heq. rewrite <- Heq in Hlen.
      pose proof (edits_lev_le _ _ _ (edits_refl (read_entire_file c1))) as Hz.
      destruct patch; [done|]. simpl in Hlen. lia.
Qed.

(** The run of [diff] on two readable files. *)
Lemma main_diff (program f1 f2 c1 c2 : string) (rest : list string)
    (fs : gmap string string) (patch : list Move) :
  fs !! f1 = Some c1 -> fs !! f2 = Some c2 ->
  edit_distance (read_entire_file c1) (read_entire_file c2) = Ok patch ->
  main writable program ("diff" :: f1 :: f2 :: rest) fs =
    Ok (mkOutcome (print_lines (map serialize patch)) (Returned 0) fs).
Proof.
  intros H1 H2 Hp. unfold main. cbn [find_subcommand find_in SUBCOMMANDS name].
  simpl String.eqb. cbv iota. unfold run. cbn [kind_of].
  unfold DiffSubcommand_run, diff_output. by rewrite H1, H2, Hp.
Qed.

(** X18. End to end, for deletions: when the lines of [b] are the lines of
    [a] with some left out (and [a] has at most [INT_MAX] lines), the text
    that [diff a b] prints, saved as a patch file, makes [patch a] print
    the contents of [b] and write them to [_a] (with a final newline if [b]
    lacked one), returning 0. *)
Theorem diff_then_patch_restores_deletions
    (program a b pp ca cb : string) (fs : gmap string string) :
  fs !! a = Some ca -> fs !! b = Some cb -> pp <> a ->
  read_entire_file cb `sublist_of` read_entire_file ca ->
  Z.of_nat (length (read_entire_file ca)) <= INT_MAX ->
  writable ("_" +:+ a) = true ->
  exists p,
    main writable program ["diff"; a; b] fs = Ok (mkOutcome p (Returned 0) fs) /\
    main writable program ["patch"; a; pp] (<[pp := p]> fs) =
      Ok (mkOutcome (terminate cb) (Returned 0)
            (<["_" +:+ a := terminate cb]> (<[pp := p]> fs))).
Proof.
  intros Ha Hb Hne Hsub Hmax Hw.
  destruct (sublist_patch_applies _ _ Hsub) as (patch & Hp & Hall & _ & Happ).
  pose proof (sublist_length _ _ Hsub) as Hlen.
  assert (Hpr : Forall printable patch).
  { eapply Forall_impl; [exact Hall|]. intros mv.
    apply move_of_printable; try apply read_entire_file_newline_free; lia. }
  exists (print_lines (map serialize patch)). split.
  { by eapply main_diff. }
  unfold main. cbn [find_subcommand find_in SUBCOMMANDS name].
  simpl String.eqb. cbv iota. unfold run. cbn [kind_of].
  unfold PatchSubcommand_run.
  rewrite lookup_insert_ne, Ha, lookup_insert_eq by done.
  rewrite read_print_lines; last first.
  { apply Forall_fmap. eapply Forall_impl; [exact Hpr|].
    intros mv. apply serialize_newline_free. }
  unfold patch_run, deserialize. rewrite parse_rows_serialize by done.
  simpl. rewrite Happ. simpl. rewrite Hw.
  rewrite <- write_to_file_print. unfold read_entire_file at 1 2.
  by rewrite write_to_file_print, print_read_lines.
Qed.

(** The names that [candidates] keeps are those at distance below 3. *)
Lemma candidates_filter subs q : forall mp,
  ref.sound mp ->
  exists mp',
    candidates subs q mp =
      Ok (filter (fun nm => (ref.levenshtein q nm < 3)%nat) (name <$> subs), mp') /\
    ref.sound mp'.
Proof.
  induction subs as [|sc subs IH]; intros mp Hs; [by exists mp|].
  cbn [candidates]. unfold ref.lev.
  destruct (ref.lev_fuel_correct
    (String.length q + String.length (name sc) + 1) q (name sc) mp Hs)
    as (mp1 & -> & Hs1 & _); [lia|].
  rewrite ref.bind_Ok. cbv beta iota.
  destruct (IH mp1 Hs1) as (mp2 & -> & Hs2).
  rewrite ref.bind_Ok. cbv beta iota.
  exists mp2. split; [|done]. rewrite fmap_cons, filter_cons.
  destruct (Z.ltb_spec (Z.of_nat (ref.levenshtein q (name sc))) 3);
    [rewrite decide_True by lia|rewrite decide_False by lia]; done.
Qed.

(** X19. The names suggested for a mistyped subcommand are exactly the
    subcommand names that at most two insertions, deletions or
    replacements of a character separate from it, whatever sound memo
    table the helper starts from. *)
Theorem suggestions_are_within_two_edits (q : string) (mp : ref.memo) :
  ref.sound mp ->
  exists cs mp',
    candidates SUBCOMMANDS q mp = Ok (cs, mp') /\
    ref.sound mp' /\
    forall nm, nm ∈ cs <->
      nm ∈ ["diff"; "patch"; "help"] /\
      exists k, (k <= 2)%nat /\ ref.script q nm k.
Proof.
  intros Hs. destruct (candidates_filter SUBCOMMANDS q mp Hs) as (mp' & Hc & Hs').
  eexists _, mp'. split_and!; [exact Hc|done|].
  intros nm. rewrite list_elem_of_filter. split.
  - intros [Hlt Hin]. split; [done|].
    exists (ref.levenshtein q nm). split; [lia|apply ref.levenshtein_script].
  - intros [Hin (k & Hk & Hscript)]. split; [|done].
    apply ref.script_levenshtein_le in Hscript. lia.
Qed.

End Cli.


Lemma diff_is_silent_on_equal_lines_witness :
  exists text,
    main (fun _ => true) "cdiff" ["diff"; "a"; "b"]
      (<["a" := "x"]> (<["b" := String "x" nl]> ∅)) =
      Ok (mkOutcome text (Returned 0) (<["a" := "x"]> (<["b" := String "x" nl]> ∅))) /\
    (text = "" <-> read_entire_file "x" = read_entire_file (String "x" nl)).
Proof.
  apply (diff_is_silent_on_equal_lines (fun _ => true) "cdiff" "a" "b"
           "x" (String "x" nl) []); reflexivity.
Defined.

Lemma diff_then_patch_restores_deletions_witness :
  exists p,
    main (fun _ => true) "cdiff" ["diff"; "a"; "b"]
      (<["a" := "x" +:+ nl +:+ "y" +:+ nl]> (<["b" := "y"]> ∅)) =
      Ok (mkOutcome p (Returned 0)
            (<["a" := "x" +:+ nl +:+ "y" +:+ nl]> (<["b" := "y"]> ∅))) /\
    main (fun _ => true) "cdiff" ["patch"; "a"; "p"]
      (<["p" := p]> (<["a" := "x" +:+ nl +:+ "y" +:+ nl]> (<["b" := "y"]> ∅))) =
      Ok (mkOutcome (terminate "y") (Returned 0)
            (<["_" +:+ "a" := terminate "y"]>
               (<["p" := p]>
                  (<["a" := "x" +:+ nl +:+ "y" +:+ nl]> (<["b" := "y"]> ∅))))).
Proof.
  apply (diff_then_patch_restores_deletions (fun _ => true) "cdiff" "a" "b" "p"
           ("x" +:+ nl +:+ "y" +:+ nl) "y").
  - reflexivity.
  - reflexivity.
  - discriminate.
  - apply sublist_cons, sublist_skip, sublist_nil.
  - vm_compute. discriminate.
  - reflexivity.
Defined.

Lemma suggestions_are_within_two_edits_witness :
  exists cs mp',
    candidates SUBCOMMANDS "pach" ∅ = Ok (cs, mp') /\
    ref.sound mp' /\
    forall nm, nm ∈ cs <->
      nm ∈ ["diff"; "patch"; "help"] /\
      exists k, (k <= 2)%nat /\ ref.script "pach" nm k.
Proof.
  apply suggestions_are_within_two_edits.
  intros s d v Hl. by rewrite lookup_empty in Hl.
Defined.
